(** * LogSeq directory selector: a shallow embedding of [test.py]

    The development follows the Python module class by class:
    [LogSeqValidator], [FileTable], [LogSeqStatus] and the handlers of
    [LogSeqDirectorySelector].  The file system and the widget toolkit are
    outside the module; the file system is a record of oracles ([FS]) that
    every handler receives, and the toolkit is reduced to the table rows,
    the notifications and the fields the handlers read and write.

    Text is held as UTF-8 bytes ([string]).  Python compares and replaces
    by code point; on well-formed UTF-8 both agree with the byte-wise
    operations used here. *)

From Stdlib Require Import ZArith List String Ascii Bool Lia.
From Stdlib Require Import Sorting.Sorted Sorting.Permutation DecimalString.
From Stdlib Require Import Structures.OrderedTypeEx Floats.SpecFloat.
Import ListNotations.

Local Open Scope string_scope.
Local Open Scope Z_scope.

(** ** Exceptions

    Only the classes that the [except] clauses of the module tell apart:
    [PermissionError] (a subclass of [OSError]), any other [OSError],
    [OverflowError] (an [ArithmeticError]) and any other [Exception]. *)

Inductive exn : Type :=
| PermissionError
| OSError
| OverflowError
| Exception.

Definition is_OSError (e : exn) : bool :=
  match e with
  | PermissionError | OSError => true
  | _ => false
  end.

(** A computation that either raises or returns. *)
Definition Res (A : Type) : Type := (exn + A)%type.

Abbreviation Ok := (@inr exn _).
Abbreviation Raise := (@inl exn _).

(** ** Numbers and their formatting *)

Module Num.

(** Decimal text of an integer, as [str] prints it. *)
Definition str_of_Z (z : Z) : string :=
  NilZero.string_of_int (Z.to_int z).

Definition str_of_nat (n : nat) : string := str_of_Z (Z.of_nat n).

(** Nearest integer to [num / den] for [0 < den], ties to the even
    neighbour: the rounding of IEEE 754 and of the [.0f] format. *)
Definition round_half_even (num den : Z) : Z :=
  let q := num / den in
  let r := num mod den in
  if 2 * r <? den then q
  else if den <? 2 * r then q + 1
  else if Z.even q then q else q + 1.

(** [float(n)]: the double nearest to the integer [n], given by its
    (integer) value.  Integers of at most 53 bits are doubles; longer
    ones lose their low bits.  A result of magnitude [2^1024] or more
    is not a double and Python raises [OverflowError]. *)
Definition float_of_int (n : Z) : Res Z :=
  let a := Z.abs n in
  let bits := Z.log2 a + 1 in
  if bits <=? 53 then Ok n
  else
    let sh := bits - 53 in
    let v := round_half_even a (2 ^ sh) * 2 ^ sh in
    if 2 ^ 1024 <=? v then Raise OverflowError
    else Ok (Z.sgn n * v).

(** The values the variable [size] takes in [_format_size]: the [int]
    it starts as, and the [float] it becomes after the first division.
    A float is held by the dyadic rational it denotes,
    [PyFloat m e] being [m / 2^e]. *)
Inductive number : Type :=
| PyInt (n : Z)
| PyFloat (m : Z) (e : Z).

(** [size < 1024.0]; Python compares an int with a float exactly. *)
Definition lt_1024 (size : number) : bool :=
  match size with
  | PyInt n => n <? 1024
  | PyFloat m e => m <? 1024 * 2 ^ e
  end.

(** [size / 1024.0].  An int is converted first; dividing a double by
    a power of two only lowers its exponent, which is exact here as
    the dividend is never below 1024. *)
Definition div_1024 (size : number) : Res number :=
  match size with
  | PyInt n =>
      match float_of_int n with
      | inr m => Ok (PyFloat m 10)
      | inl e => Raise e
      end
  | PyFloat m e => Ok (PyFloat m (e + 10))
  end.

(** [f"{size:.0f}"]: an int is converted to a float, and the float is
    printed rounded to an integer, ties to even. *)
Definition format_0f (size : number) : Res string :=
  match size with
  | PyInt n =>
      match float_of_int n with
      | inr m => Ok (str_of_Z m)
      | inl e => Raise e
      end
  | PyFloat m e => Ok (str_of_Z (round_half_even m (2 ^ e)))
  end.

End Num.

Import Num.

(** *** The same operations in IEEE 754

    The doubles of the library ([spec_float], with 53 bits of
    precision and exponents up to 1024), against which the three
    operations above can be run on any given number. *)

Module IEEE.

(** The double nearest to [m * 2^e]. *)
Definition double (m e : Z) : spec_float := binary_normalize 53 1024 m e false.

Definition of_int (n : Z) : spec_float := double n 0.

Definition of_number (size : number) : spec_float :=
  match size with
  | PyInt n => of_int n
  | PyFloat m e => double m (- e)
  end.

(** The value of a double that is an integer. *)
Definition integer_value (x : spec_float) : option Z :=
  match x with
  | S754_zero _ => Some 0
  | S754_finite s m e =>
      let sign := if s then -1 else 1 in
      if 0 <=? e then Some (sign * Z.pos m * 2 ^ e)
      else if Z.pos m mod 2 ^ (- e) =? 0
      then Some (sign * (Z.pos m / 2 ^ (- e)))
      else None
  | _ => None
  end.

(** [float_of_int n] is the value of the double of [n], and raises
    where that double is infinite. *)
Definition agrees_on_conversion (n : Z) : bool :=
  match float_of_int n, of_int n with
  | inr f, x =>
      match integer_value x with
      | Some v => f =? v
      | None => false
      end
  | inl _, S754_infinity _ => true
  | inl _, _ => false
  end.

(** Dividing [m / 2^e] by 1024.0 gives [m / 2^(e + 10)], and comparing
    it with 1024.0 gives what [lt_1024] says. *)
Definition agrees_on_division (m e : Z) : bool :=
  let x := of_number (PyFloat m e) in
  SFeqb (SFdiv 53 1024 x (of_int 1024)) (of_number (PyFloat m (e + 10)))
  && Bool.eqb (SFltb x (of_int 1024)) (lt_1024 (PyFloat m e)).

End IEEE.

(** ** [FileTable._format_size] *)

Definition units : list string := ["B"; "KB"; "MB"; "GB"].

Definition format_with (unit : string) (size : number) : Res string :=
  match format_0f size with
  | inr s => Ok (s ++ unit)
  | inl e => Raise e
  end.

(** The [for unit in ...] loop, with the [return] after it. *)
Fixpoint format_loop (us : list string) (size : number) : Res string :=
  match us with
  | [] => format_with "TB" size
  | unit :: rest =>
      if lt_1024 size then format_with unit size
      else
        match div_1024 size with
        | inr size' => format_loop rest size'
        | inl e => Raise e
        end
  end.

Definition _format_size (size : Z) : Res string :=
  format_loop units (PyInt size).

(** *** The unit chosen and the number printed *)

(** Number of divisions by 1024 the loop performs on [n]: it stops at
    the first unit for which what is left is below 1024, and after four
    divisions at the latest. *)
Definition unit_index (n : Z) : nat :=
  if n <? 1024 then 0%nat
  else if n <? 1024 ^ 2 then 1%nat
  else if n <? 1024 ^ 3 then 2%nat
  else if n <? 1024 ^ 4 then 3%nat
  else 4%nat.

Definition unit_name (k : nat) : string := nth k units "TB".

(** ** Text *)

Module Text.

(** [s.startswith(p)] *)
Definition startswith (p s : string) : bool := String.prefix p s.

(** [s.replace(old, '')] for a non-empty [old]: a scan from the left
    that drops every occurrence it meets and resumes after it.
    [skip] counts the characters of the current occurrence that are
    still to be dropped. *)
Fixpoint remove_all (old : string) (skip : nat) (s : string) : string :=
  match s with
  | EmptyString => EmptyString
  | String c rest =>
      match skip with
      | S k => remove_all old k rest
      | O =>
          if String.prefix old s
          then remove_all old (String.length old - 1) rest
          else String c (remove_all old 0 rest)
      end
  end.

Definition replace_by_empty (old s : string) : string :=
  remove_all old 0 s.

(** [old] occurs nowhere in [s]. *)
Fixpoint free_of (old s : string) : Prop :=
  match s with
  | EmptyString => True
  | String _ rest => String.prefix old s = false /\ free_of old rest
  end.

(** Lower-casing of the ASCII letters.  It is [str.lower] on text
    whose other characters have no case, and serves as the instance
    of the [lower] parameter in the concrete runs below. *)
Definition lower_char (c : ascii) : ascii :=
  let n := nat_of_ascii c in
  if (65 <=? n)%nat && (n <=? 90)%nat then ascii_of_nat (n + 32) else c.

Fixpoint ascii_lower (s : string) : string :=
  match s with
  | EmptyString => EmptyString
  | String c rest => String (lower_char c) (ascii_lower rest)
  end.

End Text.

Import Text.

(** ** Paths

    An absolute POSIX [Path], held as its components below the root;
    the root is [[]].  Two paths are equal when their components are,
    as [PurePath.__eq__] has it. *)

Definition Path : Type := list string.

Definition path_eq_dec : forall p q : Path, {p = q} + {p <> q} :=
  list_eq_dec string_dec.

Definition path_eqb (p q : Path) : bool :=
  if path_eq_dec p q then true else false.

(** [p.parent]; the root is its own parent. *)
Definition parent (p : Path) : Path := removelast p.

(** [p.name]; empty for the root. *)
Definition path_name (p : Path) : string := last p EmptyString.

(** [str(p)] *)
Definition path_str (p : Path) : string := "/" ++ String.concat "/" p.

(** [p / child] for a child name without a slash, the only names a
    directory listing yields.  An empty name and ["."] add nothing. *)
Definition joinpath (p : Path) (child : string) : Path :=
  if (child =? EmptyString)%string || (child =? ".")%string then p
  else (p ++ [child])%list.

Declare Scope path_scope.
Delimit Scope path_scope with path.
Infix "/" := joinpath : path_scope.

(** ** The file system

    What the module asks of the file system, at one moment.  Every
    call may raise.  [exists] and [is_dir] of [pathlib] answer [False]
    for a path that is not there, and raise what [stat] raises
    otherwise: a [PermissionError] for a path below a directory that
    may not be searched. *)

Record FS : Type := {
  (** [p.exists()] *)
  fs_exists : Path -> Res bool;
  (** [p.is_dir()] *)
  fs_is_dir : Path -> Res bool;
  (** [p.iterdir()]: the names of the children, in the order given *)
  fs_iterdir : Path -> Res (list string);
  (** [p.stat().st_size] *)
  fs_stat_size : Path -> Res Z;
  (** the scan of the directory [p] that [p.glob("*.md")] makes: the
      names matched *)
  fs_scan_md : Path -> Res (list string);
  (** [Path(text).expanduser().resolve()] *)
  fs_resolve : string -> Res Path
}.

(** [p.exists() and p.is_dir()]: [is_dir] is asked only of a path
    that exists. *)
Definition exists_and_is_dir (fs : FS) (p : Path) : Res bool :=
  match fs_exists fs p with
  | inl e => Raise e
  | inr false => Ok false
  | inr true => fs_is_dir fs p
  end.

(** [not p.exists() or not p.is_dir()] *)
Definition missing_or_not_dir (fs : FS) (p : Path) : Res bool :=
  match fs_exists fs p with
  | inl e => Raise e
  | inr false => Ok true
  | inr true =>
      match fs_is_dir fs p with
      | inl e => Raise e
      | inr is_dir => Ok (negb is_dir)
      end
  end.

(** [list(p.glob("*.md"))].  The glob of [pathlib] yields nothing for
    a path that is no directory, and nothing for a directory that it
    is refused to scan: it catches [PermissionError] itself.  Any
    other error of the scan leaves the glob. *)
Definition glob_md (fs : FS) (p : Path) : Res (list string) :=
  match fs_is_dir fs p with
  | inl e => Raise e
  | inr false => Ok []
  | inr true =>
      match fs_scan_md fs p with
      | inl PermissionError => Ok []
      | inl e => Raise e
      | inr found => Ok found
      end
  end.

(** ** [LogSeqValidator] *)

Definition required_items : list string := ["logseq"; "pages"; "journals"].

Definition not_a_directory_line : string :=
  "📁 Path doesn't exist or isn't a directory".

Definition present_line (item : string) : string := "✅ " ++ item ++ "/".
Definition absent_line (item : string) : string := "❌ " ++ item ++ "/".

(** [item_path.exists() and item_path.is_dir()] *)
Definition present (fs : FS) (directory : Path) (item : string)
    : Res bool :=
  let item_path := (directory / item)%path in
  exists_and_is_dir fs item_path.

(** The two branches of the loop over [required_items], on
    [(summary, is_valid)]. *)
Definition check_item (found : bool) (item : string)
    (acc : list string * bool) : list string * bool :=
  let '(summary, is_valid) := acc in
  if found
  then ((summary ++ [present_line item])%list, is_valid)
  else ((summary ++ [absent_line item])%list, false).

(** [for item in required_items: ...]; the loop is left by the first
    exception of a check. *)
Fixpoint check_items (fs : FS) (directory : Path) (items : list string)
    (acc : list string * bool) : Res (list string * bool) :=
  match items with
  | [] => Ok acc
  | item :: rest =>
      match present fs directory item with
      | inl e => Raise e
      | inr found =>
          check_items fs directory rest (check_item found item acc)
      end
  end.

Definition pages_line (md_count : nat) : string :=
  "📄 " ++ str_of_nat md_count ++ " pages".

Definition journals_line (journal_count : nat) : string :=
  "📅 " ++ str_of_nat journal_count ++ " journals".

(** The [try: ... except: pass] block.  [summary] is appended to in
    place, so an exception leaves in it what was appended before. *)
Definition count_content (fs : FS) (directory : Path)
    (summary : list string) : list string :=
  let pages_dir := (directory / "pages")%path in
  let journals_dir := (directory / "journals")%path in
  let after_pages : Res (list string) :=
    match fs_exists fs pages_dir with
    | inl e => Raise e
    | inr true =>
        match glob_md fs pages_dir with
        | inr found => Ok (summary ++ [pages_line (List.length found)])%list
        | inl e => Raise e
        end
    | inr false => Ok summary
    end in
  match after_pages with
  | inl _ => summary
  | inr summary1 =>
      match fs_exists fs journals_dir with
      | inr true =>
          match glob_md fs journals_dir with
          | inr found =>
              (summary1 ++ [journals_line (List.length found)])%list
          | inl _ => summary1
          end
      | _ => summary1
      end
  end.

(** The validator returns its pair, or raises what a check outside
    the [try] block raises. *)
Definition validate_logseq_structure (fs : FS) (directory : Path)
    : Res (bool * list string) :=
  match missing_or_not_dir fs directory with
  | inl e => Raise e
  | inr true => Ok (false, [not_a_directory_line])
  | inr false =>
      match check_items fs directory required_items ([], true) with
      | inl e => Raise e
      | inr (summary, is_valid) =>
          Ok (is_valid, count_content fs directory summary)
      end
  end.

(** ** [FileTable] *)

(** A row of the table: the cells under the keys [name], [type] and
    [size], the tuples that [load_directory] builds. *)
Record Row : Type := {
  row_name : string;
  row_type : string;
  row_size : string
}.

Definition back_name : string := "🔙 Back".
Definition up_name : string := "⬆️ Up".
Definition folder_mark : string := "📁 ".
Definition file_mark : string := "📄 ".

Definition back_row : Row :=
  {| row_name := back_name; row_type := "NAV"; row_size := EmptyString |}.
Definition up_row : Row :=
  {| row_name := up_name; row_type := "NAV"; row_size := EmptyString |}.
Definition error_row : Row :=
  {| row_name := "🔒 Permission denied";
     row_type := "ERROR";
     row_size := EmptyString |}.
Definition dir_row (name size : string) : Row :=
  {| row_name := folder_mark ++ name; row_type := "DIR"; row_size := size |}.
Definition file_row (name size : string) : Row :=
  {| row_name := file_mark ++ name; row_type := "FILE"; row_size := size |}.

(** The fields of the widget that the module owns, and the rows the
    toolkit holds for it ([clear] empties them, [add_row] appends).
    The history has its most recent entry last. *)
Record FileTable : Type := {
  table_current_directory : option Path;
  directory_history : list Path;
  table_rows : list Row
}.

(** [item.name.startswith('.') and item.name not in ['.logseq']] *)
Definition skipped (name : string) : bool :=
  startswith "." name && negb (name =? ".logseq")%string.

(** The handler of [except (PermissionError, OSError)]; what its
    [item.is_dir()] raises leaves the loop. *)
Definition locked_entry (fs : FS) (item : Path) (name : string)
    (directories files : list Row) : Res (list Row * list Row) :=
  match fs_is_dir fs item with
  | inl e => Raise e
  | inr true => Ok ((directories ++ [dir_row name "locked"])%list, files)
  | inr false => Ok (directories, (files ++ [file_row name "locked"])%list)
  end.

(** The body of the inner [try], for an entry that is not skipped: the
    entry is appended to [directories] or to [files]. *)
Definition read_entry (fs : FS) (item : Path) (name : string)
    (directories files : list Row) : Res (list Row * list Row) :=
  match fs_stat_size fs item with
  | inl e => Raise e
  | inr st_size =>
      match fs_is_dir fs item with
      | inl e => Raise e
      | inr true =>
          let size :=
            match fs_iterdir fs item with
            | inr children => str_of_nat (List.length children) ++ " items"
            | inl _ => "folder"
            end in
          Ok ((directories ++ [dir_row name size])%list, files)
      | inr false =>
          match _format_size st_size with
          | inl e => Raise e
          | inr size =>
              Ok (directories, (files ++ [file_row name size])%list)
          end
      end
  end.

(** [for item in directory.iterdir(): ...] over the names [items]. *)
Fixpoint scan (fs : FS) (directory : Path) (items : list string)
    (directories files : list Row) : Res (list Row * list Row) :=
  match items with
  | [] => Ok (directories, files)
  | name :: rest =>
      let item := (directory / name)%path in
      if skipped name then scan fs directory rest directories files
      else
        match read_entry fs item name directories files with
        | inr (directories', files') =>
            scan fs directory rest directories' files'
        | inl e =>
            if is_OSError e then
              match locked_entry fs item name directories files with
              | inr (directories', files') =>
                  scan fs directory rest directories' files'
              | inl e' => Raise e'
              end
            else Raise e
        end
  end.

Section Listing.

(** [str.lower], the case mapping of Unicode. *)
Variable lower : string -> string.

(** [key=lambda x: x[0].lower()] *)
Definition sort_key (x : Row) : string := lower (row_name x).

(** [list.sort] is stable and compares keys with [<]: an element goes
    behind every earlier element whose key is not greater. *)
Fixpoint insert_row (x : Row) (sorted : list Row) : list Row :=
  match sorted with
  | [] => [x]
  | y :: rest =>
      if (sort_key x <? sort_key y)%string then x :: y :: rest
      else y :: insert_row x rest
  end.

Definition sort_rows (l : list Row) : list Row :=
  fold_left (fun sorted x => insert_row x sorted) l [].

(** The body of the outer [try], up to the list [entries] whose rows
    are then added to the table. *)
Definition list_entries (fs : FS) (directory : Path)
    (history : list Path) : Res (list Row) :=
  let back := match history with [] => [] | _ :: _ => [back_row] end in
  let up := if path_eqb (parent directory) directory then [] else [up_row] in
  match fs_iterdir fs directory with
  | inl e => Raise e
  | inr items =>
      match scan fs directory items [] [] with
      | inl e => Raise e
      | inr (directories, files) =>
          Ok (back ++ up ++ sort_rows directories ++ sort_rows files)%list
      end
  end.

(** [load_directory]: the table afterwards, and the exception that
    leaves the method, if any. *)
Definition load_directory (fs : FS) (directory : Path)
    (add_to_history : bool) (t : FileTable) : FileTable * option exn :=
  let history :=
    match table_current_directory t with
    | Some current =>
        if add_to_history && negb (path_eqb current directory)
        then (directory_history t ++ [current])%list
        else directory_history t
    | None => directory_history t
    end in
  let cleared :=
    {| table_current_directory := Some directory;
       directory_history := history;
       table_rows := [] |} in
  let with_rows (l : list Row) :=
    {| table_current_directory := Some directory;
       directory_history := history;
       table_rows := l |} in
  match missing_or_not_dir fs directory with
  | inl e => (cleared, Some e)
  | inr true => (cleared, None)
  | inr false =>
      match list_entries fs directory history with
      | inr entries => (with_rows entries, None)
      | inl PermissionError => (with_rows [error_row], None)
      | inl e => (cleared, Some e)
      end
  end.

End Listing.

(** [go_back]: the popped directory, if any, and the table afterwards. *)
Definition go_back (t : FileTable) : option Path * FileTable :=
  match directory_history t with
  | [] => (None, t)
  | _ :: _ =>
      (Some (last (directory_history t) []),
       {| table_current_directory := table_current_directory t;
          directory_history := removelast (directory_history t);
          table_rows := table_rows t |})
  end.

(** ** [LogSeqStatus]

    The text handed to [update] is a header chosen by [is_valid], the
    lines of the summary and the path. *)
Record LogSeqStatus : Type := {
  status_current_path : option Path;
  is_valid : bool;
  status_summary : list string
}.

(** The widget once a check of [path] has returned [result]. *)
Definition status_shown (path : Path) (result : bool * list string)
    : LogSeqStatus :=
  {| status_current_path := Some path;
     is_valid := fst result;
     status_summary := snd result |}.

(** [check_logseq_structure] of the widget: the widget afterwards, and
    the exception of the validator, if any.  [current_path] is set
    before the validator runs; the verdict and the text are set once
    it has returned. *)
Definition status_check (fs : FS) (path : Path) (status : LogSeqStatus)
    : LogSeqStatus * option exn :=
  match validate_logseq_structure fs path with
  | inr result => (status_shown path result, None)
  | inl e =>
      ({| status_current_path := Some path;
          is_valid := is_valid status;
          status_summary := status_summary status |},
       Some e)
  end.

(** ** [LogSeqDirectorySelector] *)

(** The attributes of the application, its two widgets among them. *)
Record App : Type := {
  current_directory : Path;
  selected_directory : option Path;
  sub_title : string;
  path_input : string;
  file_table : FileTable;
  logseq_status : LogSeqStatus
}.

Definition set_current_directory (p : Path) (app : App) : App :=
  {| current_directory := p;
     selected_directory := selected_directory app;
     sub_title := sub_title app;
     path_input := path_input app;
     file_table := file_table app;
     logseq_status := logseq_status app |}.

Definition set_selected_directory (p : option Path) (app : App) : App :=
  {| current_directory := current_directory app;
     selected_directory := p;
     sub_title := sub_title app;
     path_input := path_input app;
     file_table := file_table app;
     logseq_status := logseq_status app |}.

Definition set_sub_title (s : string) (app : App) : App :=
  {| current_directory := current_directory app;
     selected_directory := selected_directory app;
     sub_title := s;
     path_input := path_input app;
     file_table := file_table app;
     logseq_status := logseq_status app |}.

Definition set_path_input (s : string) (app : App) : App :=
  {| current_directory := current_directory app;
     selected_directory := selected_directory app;
     sub_title := sub_title app;
     path_input := s;
     file_table := file_table app;
     logseq_status := logseq_status app |}.

Definition set_file_table (t : FileTable) (app : App) : App :=
  {| current_directory := current_directory app;
     selected_directory := selected_directory app;
     sub_title := sub_title app;
     path_input := path_input app;
     file_table := t;
     logseq_status := logseq_status app |}.

Definition set_logseq_status (s : LogSeqStatus) (app : App) : App :=
  {| current_directory := current_directory app;
     selected_directory := selected_directory app;
     sub_title := sub_title app;
     path_input := path_input app;
     file_table := file_table app;
     logseq_status := s |}.

(** What [get_row] may be handed: the key that the toolkit made for
    the row added at a position, or a row number. *)
Inductive Key : Type :=
| RowKey (position : nat)
| RowNumber (index : nat).

(** What a handler shows or prints. *)
Inductive Notice : Type :=
| Invalid_path             (** "Invalid path or not a directory" *)
| Error_notice (e : exn)   (** "Error: ..." *)
| Already_at_start         (** "Already at the starting point!" *)
| Selected (name : string) (** "Selected: <name>" *)
| Cannot_select            (** "Can't select: Not a valid LogSeq directory" *)
| Refreshed                (** "Refreshed!" *)
| Printed (text : string). (** a line on standard output *)

(** *** Handlers as state transformers

    A handler starts from the attributes of the application and ends,
    by returning or by raising, with new attributes and the notices it
    has sent; what it wrote before raising stays written. *)

Record Outcome (A : Type) : Type := {
  result : Res A;
  final : App;
  notices : list Notice
}.

Arguments result {A} _.
Arguments final {A} _.
Arguments notices {A} _.

Definition M (A : Type) : Type := App -> Outcome A.

Definition ret {A : Type} (a : A) : M A :=
  fun app => {| result := Ok a; final := app; notices := [] |}.

Definition raise {A : Type} (e : exn) : M A :=
  fun app => {| result := Raise e; final := app; notices := [] |}.

Definition bind {A B : Type} (m : M A) (k : A -> M B) : M B :=
  fun app =>
    let o := m app in
    match result o with
    | inl e => {| result := Raise e; final := final o; notices := notices o |}
    | inr a =>
        let o' := k a (final o) in
        {| result := result o';
           final := final o';
           notices := (notices o ++ notices o')%list |}
    end.

Notation "x <- m ;; k" := (bind m (fun x => k))
  (at level 61, m at next level, right associativity).
Notation "m ;; k" := (bind m (fun _ => k))
  (at level 61, right associativity).

Definition get : M App :=
  fun app => {| result := Ok app; final := app; notices := [] |}.

Definition modify (f : App -> App) : M unit :=
  fun app => {| result := Ok tt; final := f app; notices := [] |}.

Definition notify (n : Notice) : M unit :=
  fun app => {| result := Ok tt; final := app; notices := [n] |}.

Definition lift {A : Type} (r : Res A) : M A :=
  match r with
  | inl e => raise e
  | inr a => ret a
  end.

(** [try: m except Exception as e: handler e]; every exception of the
    model is an [Exception]. *)
Definition try_except {A : Type} (m : M A) (handler : exn -> M A) : M A :=
  fun app =>
    let o := m app in
    match result o with
    | inl e =>
        let o' := handler e (final o) in
        {| result := result o';
           final := final o';
           notices := (notices o ++ notices o')%list |}
    | inr _ => o
    end.

Definition returns {A : Type} (o : Outcome A) : Prop :=
  exists a, result o = Ok a.

(** The handler reported a selection. *)
Definition selection_reported {A : Type} (o : Outcome A) : Prop :=
  exists name, In (Selected name) (notices o).

Section Selector.

Variable lower : string -> string.

(** [table.get_row(key)] looks a row up by its key and raises
    [RowDoesNotExist] for anything that is no key of the table.  The
    rows are added without a key of their own and the toolkit makes
    one for each, which its events carry; a row number is no such
    key. *)
Definition get_row (key : Key) : M Row :=
  app <- get ;;
  match key with
  | RowKey position =>
      match nth_error (table_rows (file_table app)) position with
      | Some row_data => ret row_data
      | None => raise Exception
      end
  | RowNumber _ => raise Exception
  end.

(** [table.load_directory(directory)], on the table of the
    application; [add_to_history] keeps its default. *)
Definition table_load_directory (fs : FS) (directory : Path) : M unit :=
  app <- get ;;
  let '(table, raised) :=
    load_directory lower fs directory true (file_table app) in
  modify (set_file_table table) ;;
  match raised with
  | Some e => raise e
  | None => ret tt
  end.

Definition check_logseq_structure (fs : FS) (path : option Path) : M unit :=
  app <- get ;;
  let target_path :=
    match path with
    | Some p => p
    | None => current_directory app
    end in
  let '(status, raised) :=
    status_check fs target_path (logseq_status app) in
  modify (set_logseq_status status) ;;
  match raised with
  | Some e => raise e
  | None => ret tt
  end.

Definition refresh_all (fs : FS) : M unit :=
  app <- get ;;
  modify (set_sub_title ("📂 " ++ path_name (current_directory app))) ;;
  modify (set_path_input (path_str (current_directory app))) ;;
  table_load_directory fs (current_directory app) ;;
  check_logseq_structure fs None.

Definition on_mount (fs : FS) : M unit := refresh_all fs.

(** [self.current_directory = p; self.refresh_all()], the two
    statements by which every handler changes directory. *)
Definition navigate (fs : FS) (p : Path) : M unit :=
  modify (set_current_directory p) ;; refresh_all fs.

Definition action_go_back (fs : FS) : M unit :=
  app <- get ;;
  let '(previous_dir, table) := go_back (file_table app) in
  modify (set_file_table table) ;;
  match previous_dir with
  | Some p => navigate fs p
  | None => notify Already_at_start
  end.

Definition folder_name_of (filename : string) : string :=
  replace_by_empty folder_mark filename.

Definition on_file_table_row_selected (fs : FS) (row_key : nat) : M unit :=
  app <- get ;;
  match table_current_directory (file_table app) with
  | None => ret tt
  | Some table_dir =>
      row_data <- get_row (RowKey row_key) ;;
      let filename := row_name row_data in
      if (filename =? back_name)%string then action_go_back fs
      else if (filename =? up_name)%string then
        navigate fs (parent table_dir)
      else if (row_type row_data =? "DIR")%string then
        let selected_path := (table_dir / folder_name_of filename)%path in
        check_logseq_structure fs (Some selected_path)
      else ret tt
  end.

(** [cursor_row] is the number of the row the toolkit has the cursor
    on; the handler hands that number to [get_row]. *)
Definition action_open_selected (fs : FS) (cursor_row : option nat)
    : M unit :=
  app <- get ;;
  match cursor_row, table_current_directory (file_table app) with
  | Some index, Some table_dir =>
      row_data <- get_row (RowNumber index) ;;
      let filename := row_name row_data in
      if (filename =? back_name)%string then action_go_back fs
      else if (filename =? up_name)%string then
        navigate fs (parent table_dir)
      else if (row_type row_data =? "DIR")%string then
        let new_path := (table_dir / folder_name_of filename)%path in
        navigate fs new_path
      else ret tt
  | _, _ => ret tt
  end.

Definition action_select_current : M unit :=
  app <- get ;;
  if is_valid (logseq_status app) then
    modify (set_selected_directory (Some (current_directory app))) ;;
    notify (Selected (path_name (current_directory app))) ;;
    notify (Printed ("Selected LogSeq directory: "
                     ++ path_str (current_directory app)))
  else notify Cannot_select.

Definition action_refresh (fs : FS) : M unit :=
  refresh_all fs ;; notify Refreshed.

Definition action_focus_path : M unit := ret tt.

Definition on_input_submitted (fs : FS) (input_id value : string)
    : M unit :=
  if (input_id =? "path-input")%string then
    try_except
      (new_path <- lift (fs_resolve fs value) ;;
       is_folder <- lift (exists_and_is_dir fs new_path) ;;
       if is_folder then navigate fs new_path
       else notify Invalid_path)
      (fun e => notify (Error_notice e))
  else ret tt.

Definition on_button_pressed (fs : FS) (button_id : string) : M unit :=
  if (button_id =? "select-btn")%string then action_select_current
  else if (button_id =? "refresh-btn")%string then action_refresh fs
  else if (button_id =? "back-btn")%string then action_go_back fs
  else ret tt.

(** *** Sessions *)

(** What the toolkit delivers: messages of the widgets and the key
    bindings ([q] ends the session and is not an event here). *)
Inductive Event : Type :=
| RowSelected (row_key : nat)
| InputSubmitted (input_id value : string)
| ButtonPressed (button_id : string)
| KeyRefresh
| KeyFocusPath
| KeyOpen (cursor_row : option nat)
| KeyBack
| KeySelect.

Definition handle (fs : FS) (ev : Event) : M unit :=
  match ev with
  | RowSelected row_key => on_file_table_row_selected fs row_key
  | InputSubmitted input_id value => on_input_submitted fs input_id value
  | ButtonPressed button_id => on_button_pressed fs button_id
  | KeyRefresh => action_refresh fs
  | KeyFocusPath => action_focus_path
  | KeyOpen cursor_row => action_open_selected fs cursor_row
  | KeyBack => action_go_back fs
  | KeySelect => action_select_current
  end.

(** The application as constructed, before it is mounted in the
    working directory [cwd]. *)
Definition init (cwd : Path) : App :=
  {| current_directory := cwd;
     selected_directory := None;
     sub_title := "Find your LogSeq folder 📁";
     path_input := path_str cwd;
     file_table :=
       {| table_current_directory := None;
          directory_history := [];
          table_rows := [] |};
     logseq_status :=
       {| status_current_path := None;
          is_valid := false;
          status_summary := [] |} |}.

(** One event handled to its end without an exception; the file
    system may differ from one event to the next. *)
Definition step (app app' : App) : Prop :=
  exists fs ev, returns (handle fs ev app) /\ final (handle fs ev app) = app'.

(** The states of a session begun in [cwd]. *)
Inductive session (cwd : Path) : App -> Prop :=
| session_mount (fs : FS) :
    returns (on_mount fs (init cwd)) ->
    session cwd (final (on_mount fs (init cwd)))
| session_step (app app' : App) :
    session cwd app -> step app app' -> session cwd app'.

(** [app'] comes after [app] in a session. *)
Inductive later (app : App) : App -> Prop :=
| later_now : later app app
| later_step (app' app'' : App) :
    later app app' -> step app' app'' -> later app app''.

(** A run of events from a state, stopping at the first exception. *)
Fixpoint run (events : list (FS * Event)) : M unit :=
  match events with
  | [] => ret tt
  | (fs, ev) :: rest => handle fs ev ;; run rest
  end.

End Selector.

(** ** The ordering of a listing *)

Section Ordering.

Variable lower : string -> string.

Definition is_nav (r : Row) : Prop := row_type r = "NAV".
Definition is_directory (r : Row) : Prop := row_type r = "DIR".
Definition is_file (r : Row) : Prop := row_type r = "FILE".
Definition is_entry (r : Row) : Prop := is_directory r \/ is_file r.

(** Case-insensitive order of the names shown. *)
Definition name_le (a b : Row) : Prop :=
  (lower (row_name a) <=? lower (row_name b))%string = true.

(** Row [a] may stand before row [b]: no entry before a navigation
    row, no file before a directory, and two entries of one kind in
    the order of their names. *)
Definition in_order (a b : Row) : Prop :=
  ~ (is_entry a /\ is_nav b)
  /\ ~ (is_file a /\ is_directory b)
  /\ (is_directory a /\ is_directory b \/ is_file a /\ is_file b ->
      name_le a b).

(** The invariant of a listing, position by position. *)
Definition Listing_ordered (l : list Row) : Prop :=
  forall (i j : nat) (a b : Row),
    (i < j)%nat ->
    nth_error l i = Some a ->
    nth_error l j = Some b ->
    in_order a b.

End Ordering.

(** ** Invariant of the history

    The table shows the directory the application is in, and the entry
    on top of the history, if any, is another directory. *)
Definition history (app : App) : list Path :=
  directory_history (file_table app).

Definition history_inv (app : App) : Prop :=
  table_current_directory (file_table app) = Some (current_directory app)
  /\ (history app = [] \/ last (history app) [] <> current_directory app).

(** From [app] to [app'] the invariant is kept and the history has
    not become shorter. *)
Definition history_grows (app app' : App) : Prop :=
  history_inv app'
  /\ (List.length (history app) <= List.length (history app'))%nat.

(** A handler under which the history only grows. *)
Definition grows_from (m : M unit) : Prop :=
  forall app, history_inv app -> history_grows app (final (m app)).

(** The application after [go_back] has popped the history. *)
Definition popped (app : App) : App :=
  set_file_table
    {| table_current_directory := table_current_directory (file_table app);
       directory_history := removelast (history app);
       table_rows := table_rows (file_table app) |}
    app.

(** The part of [validate_logseq_structure] before the counting: the
    three lines and the verdict. *)
Definition presence (fs : FS) (directory : Path)
    : Res (list string * bool) :=
  check_items fs directory required_items ([], true).

(** The line of a required folder that has been looked for. *)
Definition presence_line (found : bool) (item : string) : string :=
  if found then present_line item else absent_line item.

(** The verdict alone. *)
Definition verdict (fs : FS) (directory : Path) : Res bool :=
  match validate_logseq_structure fs directory with
  | inl e => Raise e
  | inr (valid, _) => Ok valid
  end.

(** ** Concrete file systems *)

Module Fixture.

(** A directory with its children; a directory without any
    permission, which can be neither listed nor searched; a directory
    whose listing fails with an input/output error; a file; a symbolic
    link to nothing. *)
Inductive node : Type :=
| Dir (children : list string)
| LockedDir
| FaultyDir
| File (st_size : Z)
| Dangling.

Definition tree : Type := list (Path * node).

Fixpoint lookup (t : tree) (p : Path) : option node :=
  match t with
  | [] => None
  | (q, n) :: rest => if path_eqb q p then Some n else lookup rest p
  end.

Definition ends_with (suffix s : string) : bool :=
  let n := String.length s in
  let m := String.length suffix in
  (m <=? n)%nat && (substring (n - m) m s =? suffix)%string.

(** The paths above [p], from the root down. *)
Fixpoint ancestors (p : Path) : list Path :=
  match p with
  | [] => []
  | name :: rest => [] :: map (cons name) (ancestors rest)
  end.

(** [p] lies below a directory that may not be searched. *)
Definition blocked (t : tree) (p : Path) : bool :=
  existsb
    (fun q =>
       match lookup t q with
       | Some LockedDir => true
       | _ => false
       end)
    (ancestors p).

(** The answer of a call on [p]: a refused permission when [p] is
    blocked. *)
Definition reach {A : Type} (t : tree) (p : Path) (answer : Res A)
    : Res A :=
  if blocked t p then Raise PermissionError else answer.

(** The file system of the tree [t]; a text is resolved by the table
    [resolved], a text that is not there against the working directory
    [cwd], and a text that names a home that is unknown not at all. *)
Definition mkfs (t : tree) (cwd : Path) (resolved : list (string * Path))
    : FS :=
  {| fs_exists := fun p =>
       reach t p
         match lookup t p with
         | Some Dangling | None => Ok false
         | Some _ => Ok true
         end;
     fs_is_dir := fun p =>
       reach t p
         match lookup t p with
         | Some (Dir _) | Some LockedDir | Some FaultyDir => Ok true
         | _ => Ok false
         end;
     fs_iterdir := fun p =>
       reach t p
         match lookup t p with
         | Some (Dir children) => Ok children
         | Some LockedDir => Raise PermissionError
         | _ => Raise OSError
         end;
     fs_stat_size := fun p =>
       reach t p
         match lookup t p with
         | Some (File st_size) => Ok st_size
         | Some Dangling | None => Raise OSError
         | Some _ => Ok 4096
         end;
     fs_scan_md := fun p =>
       reach t p
         match lookup t p with
         | Some (Dir children) => Ok (filter (ends_with ".md") children)
         | Some LockedDir => Raise PermissionError
         | _ => Raise OSError
         end;
     fs_resolve := fun text =>
       match find (fun '(t, _) => (t =? text)%string) resolved with
       | Some (_, p) => Ok p
       | None =>
           if startswith "~" text then Raise Exception
           else Ok (cwd ++ [text])%list
       end |}.

Definition ws : Path := ["ws"].
Definition notes : Path := ["ws"; "notes"].

(** [/ws] holds a workspace [notes] next to other entries; [/ws]
    itself is no workspace. *)
Definition ws_tree : tree :=
  [ ([], Dir ["ws"]);
    (ws, Dir ["notes"; "Readme.txt"; ".git"; "archive"; "Build"]);
    (notes, Dir ["logseq"; "pages"; "journals"]);
    (["ws"; "notes"; "logseq"], Dir []);
    (["ws"; "notes"; "pages"], Dir ["a.md"; "b.md"; "draft.txt"]);
    (["ws"; "notes"; "journals"], Dir ["2024_01_01.md"]);
    (["ws"; "Readme.txt"], File 1536);
    (["ws"; ".git"], Dir []);
    (["ws"; "archive"], LockedDir);
    (["ws"; "Build"], Dir ["out"]) ].

Definition fs_ws : FS :=
  mkfs ws_tree ws
    [("/ws/notes", notes); ("/ws", ws);
     ("/ws/archive/x", ["ws"; "archive"; "x"])].

(** The same place after [notes] has lost its three folders. *)
Definition emptied_tree : tree :=
  [ ([], Dir ["ws"]);
    (ws, Dir ["notes"]);
    (notes, Dir []) ].

Definition fs_emptied : FS := mkfs emptied_tree ws [].

(** A workspace whose [pages] folder has no permission. *)
Definition locked_pages_tree : tree :=
  [ ([], Dir ["ws"]);
    (ws, Dir ["notes"]);
    (notes, Dir ["logseq"; "pages"; "journals"]);
    (["ws"; "notes"; "logseq"], Dir []);
    (["ws"; "notes"; "pages"], LockedDir);
    (["ws"; "notes"; "journals"], Dir ["2024_01_01.md"]) ].

Definition fs_locked_pages : FS := mkfs locked_pages_tree ws [].

(** A workspace whose [pages] folder cannot be read for an
    input/output error. *)
Definition faulty_pages_tree : tree :=
  [ ([], Dir ["ws"]);
    (ws, Dir ["notes"]);
    (notes, Dir ["logseq"; "pages"; "journals"]);
    (["ws"; "notes"; "logseq"], Dir []);
    (["ws"; "notes"; "pages"], FaultyDir);
    (["ws"; "notes"; "journals"], Dir ["2024_01_01.md"]) ].

Definition fs_faulty_pages : FS := mkfs faulty_pages_tree ws [].

(** A folder with a link to nothing next to a file and a folder. *)
Definition links : Path := ["links"].

Definition links_tree : tree :=
  [ ([], Dir ["links"]);
    (links, Dir ["target.txt"; "gone"; "sub"]);
    (["links"; "target.txt"], File 10);
    (["links"; "gone"], Dangling);
    (["links"; "sub"], Dir []) ].

Definition fs_links : FS := mkfs links_tree links [].

(** The application mounted in [cwd]. *)
Definition mounted (fs : FS) (cwd : Path) : App :=
  final (on_mount ascii_lower fs (init cwd)).

(** After the path of [notes] has been typed in, in [/ws]. *)
Definition visited : App :=
  final (handle ascii_lower fs_ws (InputSubmitted "path-input" "/ws/notes")
           (mounted fs_ws ws)).

(** After the row of [notes], the fourth of the listing of [/ws], has
    been selected. *)
Definition previewed : App :=
  final (handle ascii_lower fs_ws (RowSelected 3%nat) (mounted fs_ws ws)).

End Fixture.

(** ** The listing, entry by entry

    What [load_directory] shows for one child of the directory, read
    off the body of its loop. *)

(** The size cell, or the exception that keeps the entry from being
    read. *)
Definition entry_size (fs : FS) (item : Path) : Res string :=
  match fs_stat_size fs item with
  | inl e => Raise e
  | inr st_size =>
      match fs_is_dir fs item with
      | inl e => Raise e
      | inr true =>
          match fs_iterdir fs item with
          | inr children =>
              Ok (str_of_nat (List.length children) ++ " items")
          | inl _ => Ok "folder"
          end
      | inr false => _format_size st_size
      end
  end.

(** [is_dir] has answered that [item] is a directory. *)
Definition shown_as_dir (fs : FS) (item : Path) : bool :=
  match fs_is_dir fs item with
  | inr true => true
  | _ => false
  end.

(** The row of the child [name]; an entry that cannot be read is
    shown as locked. *)
Definition entry_row (fs : FS) (directory : Path) (name : string) : Row :=
  let item := (directory / name)%path in
  let size :=
    match entry_size fs item with
    | inr text => text
    | inl _ => "locked"
    end in
  if shown_as_dir fs item then dir_row name size else file_row name size.

(** The children shown as directories and as files, in the order the
    file system gives them. *)
Definition directory_names (fs : FS) (directory : Path)
    (items : list string) : list string :=
  filter
    (fun name =>
       negb (skipped name) && shown_as_dir fs (directory / name)%path)
    items.

Definition file_names (fs : FS) (directory : Path)
    (items : list string) : list string :=
  filter
    (fun name =>
       negb (skipped name) && negb (shown_as_dir fs (directory / name)%path))
    items.

(** The navigation rows: back when there is history, up unless at
    the root. *)
Definition nav_rows (history : list Path) (directory : Path) : list Row :=
  (match history with [] => [] | _ :: _ => [back_row] end
   ++ match directory with [] => [] | _ :: _ => [up_row] end)%list.

(** A child of which [is_dir] answers, whose size, if it can be read
    at all, is one a file system reports, and whose failure to be read
    is an [OSError]: a link to nothing is such a child, for one. *)
Definition entry_readable (fs : FS) (item : Path) : Prop :=
  (exists is_dir, fs_is_dir fs item = Ok is_dir)
  /\ match fs_stat_size fs item with
     | inr st_size => 0 <= st_size < 2 ^ 63
     | inl e => is_OSError e = true
     end.

(** The count lines of the validator when both counts succeed. *)
Definition count_lines (fs : FS) (directory : Path)
    (pages journals : list string) : list string :=
  (match fs_exists fs (directory / "pages")%path with
   | inr true => [pages_line (List.length pages)]
   | _ => []
   end
   ++ match fs_exists fs (directory / "journals")%path with
      | inr true => [journals_line (List.length journals)]
      | _ => []
      end)%list.

(** ** How an event moves the session *)

(** The ways the history and the current directory change together:
    both stay; or the directory changes and the one left is pushed; or
    the top entry becomes the directory and the one left takes its
    place. *)
Definition history_move (app app' : App) : Prop :=
  (current_directory app' = current_directory app
   /\ history app' = history app)
  \/ (current_directory app' <> current_directory app
      /\ history app' = (history app ++ [current_directory app])%list)
  \/ (history app <> []
      /\ current_directory app' = last (history app) []
      /\ current_directory app' <> current_directory app
      /\ history app'
         = (removelast (history app) ++ [current_directory app])%list).

(** The ways the selection changes: not at all, or to the current
    directory while the stored verdict is valid. *)
Definition selection_move (app app' : App) : Prop :=
  selected_directory app' = selected_directory app
  \/ (is_valid (logseq_status app) = true
      /\ selected_directory app' = Some (current_directory app)).

(** The ends a handler can come to, from [app] on the file system
    [fs]. *)
Inductive handled (lower : string -> string) (fs : FS) (app : App)
    : App -> Prop :=
| handled_nothing : handled lower fs app app
| handled_checked (target : Path) :
    handled lower fs app
      (set_logseq_status
         (fst (status_check fs target (logseq_status app))) app)
| handled_selected :
    is_valid (logseq_status app) = true ->
    handled lower fs app
      (set_selected_directory (Some (current_directory app)) app)
| handled_navigated (p : Path) :
    handled lower fs app (final (navigate lower fs p app))
| handled_back :
    handled lower fs app (final (action_go_back lower fs app)).

(** The table and the title agree with the current directory. *)
Definition shows_current (app : App) : Prop :=
  table_current_directory (file_table app) = Some (current_directory app)
  /\ sub_title app = "📂 " ++ path_name (current_directory app).

(** ** A file system with a fault *)

Module Faults.

(** [Fixture.fs_ws], except that listing [/ws/notes] fails with an
    [OSError] that is no refused permission. *)
Definition fs_broken : FS :=
  {| fs_exists := fs_exists Fixture.fs_ws;
     fs_is_dir := fs_is_dir Fixture.fs_ws;
     fs_iterdir := fun p =>
       if path_eqb p Fixture.notes then Raise OSError
       else fs_iterdir Fixture.fs_ws p;
     fs_stat_size := fs_stat_size Fixture.fs_ws;
     fs_scan_md := fs_scan_md Fixture.fs_ws;
     fs_resolve := fs_resolve Fixture.fs_ws |}.

(** [/ws/notes] shown and selected. *)
Definition chosen : App :=
  final (action_select_current
           (Fixture.mounted Fixture.fs_ws Fixture.notes)).

End Faults.

(** * Properties *)

(** ** The size formatter *)

Example format_0 : _format_size 0 = Ok "0B".
Proof. reflexivity. Qed.

Example format_1023 : _format_size 1023 = Ok "1023B".
Proof. reflexivity. Qed.

Example format_1024 : _format_size 1024 = Ok "1KB".
Proof. reflexivity. Qed.

Example format_1MiB : _format_size (1024 * 1024) = Ok "1MB".
Proof. reflexivity. Qed.

Example format_1536 : _format_size 1536 = Ok "2KB".
Proof. reflexivity. Qed.

Example format_2560 : _format_size 2560 = Ok "2KB".
Proof. reflexivity. Qed.

Lemma round_half_even_1 (z : Z) : round_half_even z 1 = z.
Proof.
  unfold round_half_even.
  rewrite Z.div_1_r, Z.mod_1_r. reflexivity.
Qed.

Lemma round_half_even_floor (num den : Z) :
  0 < den -> num / den <= round_half_even num den <= num / den + 1.
Proof.
  intros Hden. unfold round_half_even.
  destruct (2 * (num mod den) <? den); [lia|].
  destruct (den <? 2 * (num mod den)); [lia|].
  destruct (Z.even (num / den)); lia.
Qed.

Lemma float_of_int_small (n : Z) :
  0 <= n < 2 ^ 53 -> float_of_int n = Ok n.
Proof.
  intros [Hlo Hhi]. unfold float_of_int.
  rewrite Z.abs_eq by assumption.
  assert (Hbits : Z.log2 n + 1 <= 53).
  { destruct (Z.eq_dec n 0) as [->|Hnz]; [cbn; lia|].
    assert (Z.log2 n < 53) by (apply Z.log2_lt_pow2; lia). lia. }
  apply Z.leb_le in Hbits. rewrite Hbits. reflexivity.
Qed.

Lemma float_of_int_large (n f : Z) :
  2 ^ 53 <= n -> float_of_int n = Ok f -> 2 ^ 53 <= f.
Proof.
  intros Hlo. unfold float_of_int.
  assert (Hpos : 0 < n) by lia.
  rewrite Z.abs_eq by lia.
  assert (Hl1 : 53 <= Z.log2 n) by (apply Z.log2_le_pow2; lia).
  destruct (Z.leb_spec (Z.log2 n + 1) 53) as [Hc|_]; [lia|].
  set (sh := Z.log2 n + 1 - 53).
  assert (Hsh : 1 <= sh) by (unfold sh; lia).
  assert (Hd : 0 < 2 ^ sh) by (apply Z.pow_pos_nonneg; lia).
  pose proof (round_half_even_floor n (2 ^ sh) Hd) as [Hfl _].
  pose proof (Z.log2_spec n Hpos) as [Hb _].
  assert (Hq : 2 ^ 52 <= n / 2 ^ sh).
  { apply Z.div_le_lower_bound; [assumption|].
    rewrite <- Z.pow_add_r by lia.
    replace (sh + 52) with (Z.log2 n) by (unfold sh; lia). assumption. }
  assert (Hsh2 : 2 ^ 1 <= 2 ^ sh) by (apply Z.pow_le_mono_r; lia).
  set (r := round_half_even n (2 ^ sh)) in *.
  assert (Hv1 : 2 ^ 53 <= r * 2 ^ sh).
  { change (2 ^ 53) with (2 ^ 52 * 2 ^ 1). apply Z.mul_le_mono_nonneg; lia. }
  destruct (2 ^ 1024 <=? r * 2 ^ sh); [discriminate|].
  intros [= <-]. rewrite Z.sgn_pos by assumption. lia.
Qed.

(** A byte count below [2^63] is converted without overflow. *)
Lemma float_of_int_no_overflow (n : Z) :
  0 <= n < 2 ^ 63 -> exists f, float_of_int n = Ok f.
Proof.
  intros [Hlo Hhi]. destruct (Z.lt_ge_cases n (2 ^ 53)) as [Hs|Hl].
  { exists n. apply float_of_int_small. lia. }
  unfold float_of_int.
  assert (Hpos : 0 < n) by lia.
  rewrite Z.abs_eq by lia.
  assert (Hl1 : 53 <= Z.log2 n) by (apply Z.log2_le_pow2; lia).
  assert (Hl2 : Z.log2 n < 63) by (apply Z.log2_lt_pow2; lia).
  destruct (Z.leb_spec (Z.log2 n + 1) 53) as [Hc|_]; [lia|].
  set (sh := Z.log2 n + 1 - 53).
  assert (Hsh : 1 <= sh <= 10) by (unfold sh; lia).
  assert (Hd : 0 < 2 ^ sh) by (apply Z.pow_pos_nonneg; lia).
  pose proof (round_half_even_floor n (2 ^ sh) Hd) as [_ Hce].
  assert (Hsh10 : 2 ^ sh <= 2 ^ 10) by (apply Z.pow_le_mono_r; lia).
  pose proof (Z.mul_div_le n (2 ^ sh) Hd) as Hmd.
  set (r := round_half_even n (2 ^ sh)) in *.
  assert (Hv2 : r * 2 ^ sh < 2 ^ 64).
  { assert (r * 2 ^ sh <= n + 2 ^ sh) by nia.
    change (2 ^ 64) with (2 ^ 63 + 2 ^ 63).
    assert (2 ^ 10 < 2 ^ 63) by reflexivity. lia. }
  assert (Hmax : 2 ^ 64 < 2 ^ 1024) by (apply Z.pow_lt_mono_r; lia).
  destruct (Z.leb_spec (2 ^ 1024) (r * 2 ^ sh)) as [Hc|_]; [lia|].
  eexists. reflexivity.
Qed.

(** The loop on an integer [n], unrolled, in terms of its double [f]. *)
Lemma format_size_unrolled (n f : Z) :
  0 <= n ->
  float_of_int n = Ok f ->
  _format_size n =
    Ok (str_of_Z (round_half_even f (1024 ^ Z.of_nat (unit_index n)))
        ++ unit_name (unit_index n)).
Proof.
  intros Hn Hf.
  assert (Hsmall : n < 2 ^ 53 -> f = n).
  { intros Hs. rewrite float_of_int_small in Hf by lia. congruence. }
  assert (Hlarge : 2 ^ 53 <= n -> 2 ^ 53 <= f).
  { intros Hl. apply (float_of_int_large n f Hl Hf). }
  assert (Hcmp : forall b, b <= 2 ^ 53 -> (f <? b) = (n <? b)).
  { intros b Hb. destruct (Z.lt_ge_cases n (2 ^ 53)) as [Hs|Hl].
    - rewrite (Hsmall Hs). reflexivity.
    - specialize (Hlarge Hl).
      destruct (Z.ltb_spec f b), (Z.ltb_spec n b); try reflexivity; lia. }
  unfold _format_size, unit_index, units.
  cbn [format_loop]. unfold lt_1024 at 1. unfold div_1024 at 1.
  unfold format_with at 1. unfold format_0f at 1. rewrite Hf.
  cbn [lt_1024 div_1024 format_with format_0f].
  destruct (n <? 1024) eqn:H0.
  { change (1024 ^ Z.of_nat 0) with 1. rewrite round_half_even_1. reflexivity. }
  change (1024 * 2 ^ 10) with (1024 ^ 2).
  rewrite (Hcmp (1024 ^ 2)) by (vm_compute; discriminate).
  destruct (n <? 1024 ^ 2) eqn:H1; [reflexivity|].
  change (1024 * 2 ^ (10 + 10)) with (1024 ^ 3).
  rewrite (Hcmp (1024 ^ 3)) by (vm_compute; discriminate).
  destruct (n <? 1024 ^ 3) eqn:H2; [reflexivity|].
  change (1024 * 2 ^ (10 + 10 + 10)) with (1024 ^ 4).
  rewrite (Hcmp (1024 ^ 4)) by (vm_compute; discriminate).
  destruct (n <? 1024 ^ 4) eqn:H3; reflexivity.
Qed.

Lemma unit_index_spec (n : Z) :
  let k := unit_index n in
  (k <= 4)%nat
  /\ ((k < 4)%nat -> n < 1024 ^ (Z.of_nat k + 1))
  /\ ((0 < k)%nat -> 1024 ^ Z.of_nat k <= n).
Proof.
  unfold unit_index.
  destruct (Z.ltb_spec n 1024); [cbn; lia|].
  destruct (Z.ltb_spec n (1024 ^ 2)); [cbn in *; lia|].
  destruct (Z.ltb_spec n (1024 ^ 3)); [cbn in *; lia|].
  destruct (Z.ltb_spec n (1024 ^ 4)); cbn in *; lia.
Qed.



Example format_5000 : _format_size 5000 = Ok "5KB".
Proof. reflexivity. Qed.

(** A byte count of more than 53 bits is rounded twice, to a double
    and then to an integer: the quotient of [2^53 + 2^39 + 1] by
    [1024^4] lies above 8192.5 and still prints as 8192. *)
Example format_double_rounding :
  _format_size (2 ^ 53 + 2 ^ 39 + 1) = Ok "8192TB"
  /\ round_half_even (2 ^ 53 + 2 ^ 39 + 1) (1024 ^ 4) = 8193.
Proof. split; reflexivity. Qed.

(** The conversion, the division and the comparison, run against the
    doubles of IEEE 754 on byte counts around every threshold. *)
Example conversion_is_IEEE :
  forallb IEEE.agrees_on_conversion
    [0; 1; 1023; 1024; 1048575; 2 ^ 53 - 1; 2 ^ 53; 2 ^ 53 + 1; 2 ^ 53 + 3;
     2 ^ 54 - 1;
     2 ^ 53 + 2 ^ 39 + 1; 2 ^ 63 - 1; 2 ^ 64 + 2 ^ 11 + 1;
     2 ^ 1024 - 2 ^ 970 - 1; 2 ^ 1024 - 2 ^ 970; 2 ^ 1024] = true.
Proof. vm_compute. reflexivity. Qed.

Example division_is_IEEE :
  forallb (fun '(m, e) => IEEE.agrees_on_division m e)
    [(1024, 0); (1048575, 0); (1048575, 10); (1048576, 10); (2 ^ 40 - 1, 30);
     (2 ^ 53 + 2 ^ 39, 0); (2 ^ 53 + 2 ^ 39, 30); (2 ^ 63, 30)] = true.
Proof. vm_compute. reflexivity. Qed.

(** An integer beyond the doubles makes the division raise. *)
Example format_overflow : _format_size (2 ^ 1024) = Raise OverflowError.
Proof. vm_compute. reflexivity. Qed.


(** C10.  Some byte count prints as 1024KB: 1048575 is below
    [1024^2], so one division is made and the quotient, below 1024,
    is printed with unit KB, but rounded to no decimal place it shows
    1024. *)
Theorem format_size_shows_1024 :
  exists n : Z,
    0 <= n
    /\ n = 1048575
    /\ unit_index n = 1%nat
    /\ n < 1024 * 1024
    /\ round_half_even n 1024 = 1024
    /\ _format_size n = Ok "1024KB".
Proof.
  exists 1048575. repeat split; try reflexivity. discriminate.
Qed.

(** ** The validator *)

Lemma missing_or_not_dir_spec (fs : FS) (p : Path) :
  missing_or_not_dir fs p =
    match exists_and_is_dir fs p with
    | inl e => Raise e
    | inr found => Ok (negb found)
    end.
Proof.
  unfold missing_or_not_dir, exists_and_is_dir.
  destruct (fs_exists fs p) as [e|[|]]; [reflexivity| |reflexivity].
  destruct (fs_is_dir fs p) as [e|[|]]; reflexivity.
Qed.

Lemma exists_and_is_dir_true (fs : FS) (p : Path) :
  exists_and_is_dir fs p = Ok true <->
  fs_exists fs p = Ok true /\ fs_is_dir fs p = Ok true.
Proof.
  unfold exists_and_is_dir. split.
  - destruct (fs_exists fs p) as [e|[|]]; try discriminate.
    intros ->. split; reflexivity.
  - intros [-> ->]. reflexivity.
Qed.

Lemma exists_and_is_dir_false (fs : FS) (p : Path) :
  exists_and_is_dir fs p = Ok false <->
  fs_exists fs p = Ok false
  \/ (fs_exists fs p = Ok true /\ fs_is_dir fs p = Ok false).
Proof.
  unfold exists_and_is_dir. split.
  - destruct (fs_exists fs p) as [e|[|]]; try discriminate.
    + intros ->. right. split; reflexivity.
    + intros _. left. reflexivity.
  - intros [->|[-> ->]]; reflexivity.
Qed.

(** The loop over the three required folders, check by check. *)
Lemma presence_spec (fs : FS) (directory : Path) :
  presence fs directory =
    match present fs directory "logseq" with
    | inl e => Raise e
    | inr found1 =>
        match present fs directory "pages" with
        | inl e => Raise e
        | inr found2 =>
            match present fs directory "journals" with
            | inl e => Raise e
            | inr found3 =>
                Ok ([presence_line found1 "logseq";
                     presence_line found2 "pages";
                     presence_line found3 "journals"],
                    found1 && found2 && found3)
            end
        end
    end.
Proof.
  unfold presence, required_items. cbn [check_items].
  destruct (present fs directory "logseq") as [e|[|]]; [reflexivity|..];
    (destruct (present fs directory "pages") as [e|[|]]; [reflexivity|..]);
    (destruct (present fs directory "journals") as [e|[|]]);
    reflexivity.
Qed.

Lemma presence_length (fs : FS) (directory : Path)
    (lines : list string) (valid : bool) :
  presence fs directory = Ok (lines, valid) ->
  List.length lines = 3%nat.
Proof.
  rewrite presence_spec.
  destruct (present fs directory "logseq") as [e|b1]; [discriminate|].
  destruct (present fs directory "pages") as [e|b2]; [discriminate|].
  destruct (present fs directory "journals") as [e|b3]; [discriminate|].
  intros H. injection H as <- _. reflexivity.
Qed.

(** The loop returns when every check does, and only then. *)
Lemma presence_returns (fs : FS) (directory : Path) :
  (forall item, In item required_items ->
     exists found, present fs directory item = Ok found) <->
  exists lines valid, presence fs directory = Ok (lines, valid).
Proof.
  rewrite presence_spec. split.
  - intros H.
    destruct (H "logseq") as [b1 ->]; [cbn; tauto|].
    destruct (H "pages") as [b2 ->]; [cbn; tauto|].
    destruct (H "journals") as [b3 ->]; [cbn; tauto|].
    eexists. eexists. reflexivity.
  - intros (lines & valid & H).
    destruct (present fs directory "logseq") as [e|b1] eqn:H1;
      [discriminate|].
    destruct (present fs directory "pages") as [e|b2] eqn:H2;
      [discriminate|].
    destruct (present fs directory "journals") as [e|b3] eqn:H3;
      [discriminate|].
    intros item [<-|[<-|[<-|[]]]]; eexists; eassumption.
Qed.

(** The verdict of the loop is the conjunction of its checks. *)
Lemma presence_verdict (fs : FS) (directory : Path)
    (lines : list string) (valid : bool) :
  presence fs directory = Ok (lines, valid) ->
  (valid = true <->
   forall item, In item required_items ->
     present fs directory item = Ok true).
Proof.
  rewrite presence_spec.
  destruct (present fs directory "logseq") as [e|b1] eqn:H1; [discriminate|].
  destruct (present fs directory "pages") as [e|b2] eqn:H2; [discriminate|].
  destruct (present fs directory "journals") as [e|b3] eqn:H3;
    [discriminate|].
  intros H. injection H as _ <-. split.
  - intros Hv. apply andb_true_iff in Hv as [Hv ->].
    apply andb_true_iff in Hv as [-> ->].
    intros item [<-|[<-|[<-|[]]]]; assumption.
  - intros Hall.
    assert (E1 := Hall "logseq" (or_introl eq_refl)).
    assert (E2 := Hall "pages" (or_intror (or_introl eq_refl))).
    assert (E3 := Hall "journals"
                    (or_intror (or_intror (or_introl eq_refl)))).
    rewrite H1 in E1. rewrite H2 in E2. rewrite H3 in E3.
    injection E1 as ->. injection E2 as ->. injection E3 as ->.
    reflexivity.
Qed.

(** Each line of the loop is the line of one check. *)
Lemma presence_lines (fs : FS) (directory : Path)
    (lines : list string) (valid : bool) :
  presence fs directory = Ok (lines, valid) ->
  exists found1 found2 found3,
    present fs directory "logseq" = Ok found1
    /\ present fs directory "pages" = Ok found2
    /\ present fs directory "journals" = Ok found3
    /\ lines = [presence_line found1 "logseq";
                presence_line found2 "pages";
                presence_line found3 "journals"]
    /\ valid = found1 && found2 && found3.
Proof.
  rewrite presence_spec.
  destruct (present fs directory "logseq") as [e|b1]; [discriminate|].
  destruct (present fs directory "pages") as [e|b2]; [discriminate|].
  destruct (present fs directory "journals") as [e|b3]; [discriminate|].
  intros H. injection H as <- <-.
  exists b1, b2, b3. repeat split; reflexivity.
Qed.

Lemma validate_directory (fs : FS) (directory : Path) :
  fs_exists fs directory = Ok true ->
  fs_is_dir fs directory = Ok true ->
  validate_logseq_structure fs directory =
    match presence fs directory with
    | inl e => Raise e
    | inr (lines, valid) => Ok (valid, count_content fs directory lines)
    end.
Proof.
  intros He Hd. unfold validate_logseq_structure, missing_or_not_dir.
  rewrite He, Hd. cbn [negb]. reflexivity.
Qed.

Lemma validate_not_directory (fs : FS) (directory : Path) :
  fs_exists fs directory = Ok false
  \/ (fs_exists fs directory = Ok true /\ fs_is_dir fs directory = Ok false) ->
  validate_logseq_structure fs directory = Ok (false, [not_a_directory_line]).
Proof.
  intros [H|[H H']]; unfold validate_logseq_structure, missing_or_not_dir;
    rewrite H; [|rewrite H']; reflexivity.
Qed.

(** What the first check raises leaves the validator. *)
Lemma validate_unexamined (fs : FS) (directory : Path) (e : exn) :
  exists_and_is_dir fs directory = Raise e ->
  validate_logseq_structure fs directory = Raise e.
Proof.
  intros H. unfold validate_logseq_structure.
  rewrite missing_or_not_dir_spec, H. reflexivity.
Qed.

Lemma present_iff (fs : FS) (directory : Path) (item : string) :
  present fs directory item = Ok true <->
  fs_exists fs (directory / item)%path = Ok true
  /\ fs_is_dir fs (directory / item)%path = Ok true.
Proof. unfold present. apply exists_and_is_dir_true. Qed.

(** The counting only appends to the summary. *)
Lemma count_content_extends (fs : FS) (directory : Path)
    (summary : list string) :
  exists counts, count_content fs directory summary = (summary ++ counts)%list.
Proof.
  unfold count_content.
  destruct (fs_exists fs (directory / "pages")%path) as [e|[|]];
    [|destruct (glob_md fs (directory / "pages")%path) as [e|found]|];
    try (exists []; rewrite app_nil_r; reflexivity);
    (destruct (fs_exists fs (directory / "journals")%path) as [e'|[|]];
     [|destruct (glob_md fs (directory / "journals")%path) as [e'|found']|]);
    rewrite <- ?app_assoc; eexists; try reflexivity;
    rewrite app_nil_r; reflexivity.
Qed.

(** The validator raises nothing but what a check of presence
    raises. *)
Lemma validate_returns_iff (fs : FS) (directory : Path) :
  (exists result, validate_logseq_structure fs directory = Ok result) <->
  exists_and_is_dir fs directory = Ok false
  \/ (exists_and_is_dir fs directory = Ok true
      /\ forall item, In item required_items ->
           exists found, present fs directory item = Ok found).
Proof.
  unfold validate_logseq_structure. rewrite missing_or_not_dir_spec.
  fold (presence fs directory).
  destruct (exists_and_is_dir fs directory) as [e|[|]]; cbn [negb].
  - split; [intros [r H]; discriminate|].
    intros [H|[H _]]; discriminate.
  - rewrite presence_returns. split.
    + intros [r H]. right. split; [reflexivity|].
      destruct (presence fs directory) as [e|[lines valid]]; [discriminate|].
      eexists. eexists. reflexivity.
    + intros [H|[_ (lines & valid & ->)]]; [discriminate|].
      eexists. reflexivity.
  - split; [left; reflexivity|]. intros _. eexists. reflexivity.
Qed.

(** The checks of presence read [exists] and [is_dir] alone. *)
Lemma verdict_same_directories (fs fs' : FS) (directory : Path) :
  (forall p, fs_exists fs' p = fs_exists fs p) ->
  (forall p, fs_is_dir fs' p = fs_is_dir fs p) ->
  verdict fs' directory = verdict fs directory.
Proof.
  intros Hex Hdir. unfold verdict, validate_logseq_structure.
  rewrite !missing_or_not_dir_spec.
  assert (Hboth : forall p, exists_and_is_dir fs' p = exists_and_is_dir fs p).
  { intros p. unfold exists_and_is_dir. rewrite Hex, Hdir. reflexivity. }
  rewrite Hboth.
  destruct (exists_and_is_dir fs directory) as [e|[|]]; cbn [negb];
    try reflexivity.
  fold (presence fs' directory). fold (presence fs directory).
  rewrite !presence_spec. unfold present. rewrite !Hboth.
  destruct (exists_and_is_dir fs (directory / "logseq")%path) as [e|b1];
    [reflexivity|].
  destruct (exists_and_is_dir fs (directory / "pages")%path) as [e|b2];
    [reflexivity|].
  destruct (exists_and_is_dir fs (directory / "journals")%path) as [e|b3];
    reflexivity.
Qed.

(** C4.  For a directory whose three checks of presence return, the
    validator returns, and its verdict is true exactly when [logseq],
    [pages] and [journals] all exist as directories directly under it;
    for a path that is found not to exist or to be no directory the
    result is invalid with one diagnostic line; the verdict, or the
    exception in its place, is the same on any file system with the
    same directories, whatever it holds or refuses to list in them;
    and what a check of the path or of a required folder raises
    leaves the validator. *)
Theorem validate_is_valid_iff (fs fs' : FS) (directory : Path) :
  (fs_exists fs directory = Ok true ->
   fs_is_dir fs directory = Ok true ->
   (forall item, In item required_items ->
      exists found, present fs directory item = Ok found) ->
   exists valid summary,
     validate_logseq_structure fs directory = Ok (valid, summary)
     /\ (valid = true <->
         forall item, In item required_items ->
           fs_exists fs (directory / item)%path = Ok true
           /\ fs_is_dir fs (directory / item)%path = Ok true))
  /\ (fs_exists fs directory = Ok false
      \/ (fs_exists fs directory = Ok true
          /\ fs_is_dir fs directory = Ok false) ->
      validate_logseq_structure fs directory
      = Ok (false, [not_a_directory_line]))
  /\ ((forall p, fs_exists fs' p = fs_exists fs p) ->
      (forall p, fs_is_dir fs' p = fs_is_dir fs p) ->
      verdict fs' directory = verdict fs directory)
  /\ (forall e,
        exists_and_is_dir fs directory = Raise e
        \/ (exists_and_is_dir fs directory = Ok true
            /\ presence fs directory = Raise e) ->
        validate_logseq_structure fs directory = Raise e).
Proof.
  split; [|split; [|split]].
  - intros He Hd Hall. rewrite (validate_directory fs directory He Hd).
    apply presence_returns in Hall as (lines & valid & Hp).
    rewrite Hp. exists valid, (count_content fs directory lines).
    split; [reflexivity|].
    rewrite (presence_verdict fs directory lines valid Hp).
    split; intros H item Hin; apply present_iff, H, Hin.
  - apply validate_not_directory.
  - apply verdict_same_directories.
  - intros e [H|[H Hp]].
    + apply validate_unexamined, H.
    + apply exists_and_is_dir_true in H as [He Hd].
      rewrite (validate_directory fs directory He Hd), Hp. reflexivity.
Qed.

Lemma validate_is_valid_iff_witness :
  exists summary,
    validate_logseq_structure Fixture.fs_ws Fixture.notes = Ok (true, summary).
Proof.
  destruct (proj1 (validate_is_valid_iff Fixture.fs_ws Fixture.fs_ws
                     Fixture.notes) eq_refl eq_refl)
    as (valid & summary & Hv & Hiff).
  - intros item [<-|[<-|[<-|[]]]]; eexists; vm_compute; reflexivity.
  - exists summary. rewrite Hv.
    replace valid with true; [reflexivity|].
    symmetry. apply Hiff.
    intros item [<-|[<-|[<-|[]]]]; split; vm_compute; reflexivity.
Defined.

(** C4, not for every directory.  [/ws/archive] exists and is a
    directory, but it may not be searched: the check of its first
    required folder raises, and the validator, instead of returning a
    verdict, raises with it. *)
Lemma validate_unsearchable_directory :
  fs_exists Fixture.fs_ws ["ws"; "archive"] = Ok true
  /\ fs_is_dir Fixture.fs_ws ["ws"; "archive"] = Ok true
  /\ fs_exists Fixture.fs_ws ["ws"; "archive"; "logseq"]
     = Raise PermissionError
  /\ validate_logseq_structure Fixture.fs_ws ["ws"; "archive"]
     = Raise PermissionError.
Proof. repeat split; vm_compute; reflexivity. Qed.

Lemma glob_md_refused (fs : FS) (p : Path) :
  fs_is_dir fs p = Ok true ->
  fs_scan_md fs p = Raise PermissionError ->
  glob_md fs p = Ok [].
Proof. intros Hd Hs. unfold glob_md. rewrite Hd, Hs. reflexivity. Qed.

Lemma glob_md_raises (fs : FS) (p : Path) (e : exn) :
  glob_md fs p = Raise e ->
  fs_is_dir fs p = Raise e
  \/ (fs_is_dir fs p = Ok true /\ fs_scan_md fs p = Raise e
      /\ e <> PermissionError).
Proof.
  unfold glob_md. destruct (fs_is_dir fs p) as [e'|[|]].
  - intros H. injection H as <-. left. reflexivity.
  - destruct (fs_scan_md fs p) as [[| | |]|found]; try discriminate;
      intros H; injection H as <-; right; repeat split; discriminate.
  - discriminate.
Qed.

(** C8.  For a directory that passes the existence check and whose
    checks of presence return, the validator returns, and an exception
    of the count in [pages] or in [journals] is swallowed: the verdict
    and the three presence lines are those of the check without the
    counting, and the failed count leaves no line.  When the count in
    [pages] raises the summary is the three lines alone; when only the
    count in [journals] raises it is the three lines and the line of
    [pages], if that folder exists.  A count raises for an error of
    its scan other than a refused permission; a scan that is refused
    does not make the count raise: the count is then 0 and has its
    line. *)
Theorem validate_count_failure (fs : FS) (directory : Path) (e : exn)
    (lines : list string) (valid : bool) :
  fs_exists fs directory = Ok true ->
  fs_is_dir fs directory = Ok true ->
  presence fs directory = Ok (lines, valid) ->
  exists summary,
    validate_logseq_structure fs directory = Ok (valid, summary)
    /\ List.length lines = 3%nat
    /\ firstn 3 summary = lines
    /\ (fs_exists fs (directory / "pages")%path = Ok true ->
        glob_md fs (directory / "pages")%path = Raise e ->
        summary = lines)
    /\ (fs_exists fs (directory / "journals")%path = Ok true ->
        glob_md fs (directory / "journals")%path = Raise e ->
        (fs_exists fs (directory / "pages")%path = Ok false ->
         summary = lines)
        /\ (forall found,
              fs_exists fs (directory / "pages")%path = Ok true ->
              glob_md fs (directory / "pages")%path = Ok found ->
              summary = (lines ++ [pages_line (List.length found)])%list))
    /\ (forall p,
          fs_is_dir fs p = Ok true ->
          fs_scan_md fs p = Raise e ->
          e <> PermissionError ->
          glob_md fs p = Raise e)
    /\ (fs_exists fs (directory / "pages")%path = Ok true ->
        fs_is_dir fs (directory / "pages")%path = Ok true ->
        fs_scan_md fs (directory / "pages")%path = Raise PermissionError ->
        nth_error summary 3 = Some (pages_line 0)).
Proof.
  intros He Hd Hp.
  rewrite (validate_directory fs directory He Hd), Hp.
  exists (count_content fs directory lines).
  pose proof (presence_length fs directory lines valid Hp) as Hlen.
  split; [reflexivity|]. split; [exact Hlen|]. split.
  { destruct (count_content_extends fs directory lines) as [counts ->].
    rewrite <- Hlen. rewrite firstn_app.
    rewrite firstn_all, Nat.sub_diag. cbn [firstn]. apply app_nil_r. }
  split; [|split; [|split]].
  - intros Hpg Hg. unfold count_content. rewrite Hpg, Hg. reflexivity.
  - intros Hj Hg. split.
    + intros Hpg. unfold count_content. rewrite Hpg, Hj, Hg. reflexivity.
    + intros found Hpg Hgp. unfold count_content.
      rewrite Hpg, Hgp, Hj, Hg. reflexivity.
  - intros p Hdp Hs Hne. unfold glob_md. rewrite Hdp, Hs.
    destruct e; try reflexivity. contradiction.
  - intros Hpg Hdp Hs. unfold count_content.
    rewrite Hpg, (glob_md_refused fs _ Hdp Hs). cbn [List.length].
    destruct lines as [|l1 [|l2 [|l3 [|l4 rest]]]]; try discriminate.
    destruct (fs_exists fs (directory / "journals")%path) as [e'|[|]];
      try reflexivity.
    destruct (glob_md fs (directory / "journals")%path); reflexivity.
Qed.

Lemma validate_count_failure_witness :
  validate_logseq_structure Fixture.fs_faulty_pages Fixture.notes =
    Ok (true, ["✅ logseq/"; "✅ pages/"; "✅ journals/"]).
Proof.
  destruct (validate_count_failure Fixture.fs_faulty_pages Fixture.notes
              OSError ["✅ logseq/"; "✅ pages/"; "✅ journals/"] true
              eq_refl eq_refl eq_refl)
    as (summary & Hv & _ & _ & Hpages & _).
  rewrite Hv. rewrite (Hpages eq_refl eq_refl). reflexivity.
Defined.

(** C8, not for a refused permission.  The folder [pages] of
    [/ws/notes] has no permission, so that counting its pages fails;
    the validator still gives a line for the count, which says 0. *)
Lemma validate_count_refused :
  fs_exists Fixture.fs_locked_pages Fixture.notes = Ok true
  /\ fs_is_dir Fixture.fs_locked_pages Fixture.notes = Ok true
  /\ fs_iterdir Fixture.fs_locked_pages ["ws"; "notes"; "pages"]
     = Raise PermissionError
  /\ fs_scan_md Fixture.fs_locked_pages ["ws"; "notes"; "pages"]
     = Raise PermissionError
  /\ validate_logseq_structure Fixture.fs_locked_pages Fixture.notes
     = Ok (true,
           ["✅ logseq/"; "✅ pages/"; "✅ journals/"; "📄 0 pages";
            "📅 1 journals"]).
Proof. repeat split; vm_compute; reflexivity. Qed.

(** ** The listing *)

(** *** The order of strings *)

Lemma string_ltb_leb (a b : string) :
  (a <? b)%string = true -> (a <=? b)%string = true.
Proof.
  unfold String.ltb, String.leb. destruct (a ?= b)%string; congruence.
Qed.

Lemma string_ltb_false_leb (a b : string) :
  (a <? b)%string = false -> (b <=? a)%string = true.
Proof.
  unfold String.ltb, String.leb. rewrite (String.compare_antisym b a).
  destruct (a ?= b)%string; cbn; congruence.
Qed.

Lemma string_compare_lt_trans (a b c : string) :
  (a ?= b)%string = Lt -> (b ?= c)%string = Lt -> (a ?= c)%string = Lt.
Proof.
  intros Hab Hbc.
  apply String_as_OT.cmp_lt. apply String_as_OT.lt_trans with b;
    apply String_as_OT.cmp_lt; assumption.
Qed.

Lemma string_leb_trans (a b c : string) :
  (a <=? b)%string = true -> (b <=? c)%string = true ->
  (a <=? c)%string = true.
Proof.
  unfold String.leb. intros Hab Hbc.
  destruct (a ?= b)%string eqn:Eab; try discriminate.
  - apply String.compare_eq_iff in Eab. subst b. assumption.
  - destruct (b ?= c)%string eqn:Ebc; try discriminate.
    + apply String.compare_eq_iff in Ebc. subst c. rewrite Eab. reflexivity.
    + rewrite (string_compare_lt_trans a b c Eab Ebc). reflexivity.
Qed.

(** *** Lists in order *)

Lemma StronglySorted_app {A : Type} (R : A -> A -> Prop) (l1 l2 : list A) :
  StronglySorted R l1 ->
  StronglySorted R l2 ->
  (forall a b, In a l1 -> In b l2 -> R a b) ->
  StronglySorted R (l1 ++ l2).
Proof.
  intros H1 H2 Hcross. induction H1 as [|a l1 Hl1 IH Ha]; cbn.
  - assumption.
  - constructor.
    + apply IH. intros x y Hx Hy. apply Hcross; [right|]; assumption.
    + apply Forall_app. split; [assumption|].
      apply Forall_forall. intros y Hy. apply Hcross; [left; reflexivity|].
      assumption.
Qed.

Lemma StronglySorted_weaken {A : Type} (R R' : A -> A -> Prop)
    (P : A -> Prop) (l : list A) :
  (forall a b, P a -> P b -> R a b -> R' a b) ->
  Forall P l ->
  StronglySorted R l ->
  StronglySorted R' l.
Proof.
  intros Himp HP HS. induction HS as [|a l Hl IH Ha].
  - constructor.
  - inversion HP as [|? ? Pa Pl]; subst. constructor.
    + apply IH. assumption.
    + rewrite Forall_forall in *. intros b Hb.
      apply Himp; [assumption|apply Pl; assumption|apply Ha; assumption].
Qed.

Lemma StronglySorted_nth {A : Type} (R : A -> A -> Prop) (l : list A) :
  StronglySorted R l ->
  forall (i j : nat) (a b : A),
    (i < j)%nat -> nth_error l i = Some a -> nth_error l j = Some b -> R a b.
Proof.
  intros HS. induction HS as [|x l Hl IH Hx]; intros i j a b Hij Ha Hb.
  - destruct i; discriminate.
  - destruct j as [|j]; [lia|]. cbn in Hb. destruct i as [|i].
    + cbn in Ha. injection Ha as <-.
      rewrite Forall_forall in Hx. apply Hx. eapply nth_error_In. eassumption.
    + cbn in Ha. apply (IH i j); [lia|assumption..].
Qed.

Lemma Forall_snoc {A : Type} (P : A -> Prop) (l : list A) (x : A) :
  Forall P l -> P x -> Forall P (l ++ [x]).
Proof.
  intros Hl Hx. apply Forall_app. split; [assumption|].
  constructor; [assumption|constructor].
Qed.

Section ListingFacts.

Variable lower : string -> string.

Local Abbreviation name_le := (name_le lower).
Local Abbreviation in_order := (in_order lower).
Local Abbreviation insert_row := (insert_row lower).
Local Abbreviation sort_rows := (sort_rows lower).

Lemma insert_row_Forall (P : Row -> Prop) (x : Row) (l : list Row) :
  P x -> Forall P l -> Forall P (insert_row x l).
Proof.
  intros Hx Hl. induction Hl as [|y l Hy Hl IH]; cbn.
  - constructor; [assumption|constructor].
  - destruct (sort_key lower x <? sort_key lower y)%string.
    + constructor; [assumption|]. constructor; assumption.
    + constructor; assumption.
Qed.

Lemma insert_row_sorted (x : Row) (l : list Row) :
  StronglySorted name_le l -> StronglySorted name_le (insert_row x l).
Proof.
  intros HS. induction HS as [|y l Hl IH Hy]; cbn.
  - constructor; constructor.
  - destruct (sort_key lower x <? sort_key lower y)%string eqn:Hlt.
    + assert (Hxy : name_le x y) by (apply string_ltb_leb; exact Hlt).
      constructor.
      * constructor; assumption.
      * constructor; [assumption|].
        rewrite Forall_forall in *. intros z Hz.
        eapply string_leb_trans; [exact Hxy|]. apply Hy. assumption.
    + constructor; [assumption|].
      apply insert_row_Forall; [|assumption].
      apply string_ltb_false_leb. exact Hlt.
Qed.

Lemma insert_row_Permutation (x : Row) (l : list Row) :
  Permutation (insert_row x l) (x :: l).
Proof.
  induction l as [|y l IH]; cbn.
  - apply Permutation_refl.
  - destruct (sort_key lower x <? sort_key lower y)%string.
    + apply Permutation_refl.
    + eapply Permutation_trans; [apply perm_skip; exact IH|].
      apply perm_swap.
Qed.

Lemma sort_from_sorted (l acc : list Row) :
  StronglySorted name_le acc ->
  StronglySorted name_le
    (fold_left (fun sorted x => insert_row x sorted) l acc).
Proof.
  revert acc. induction l as [|x l IH]; intros acc Hacc; cbn.
  - assumption.
  - apply IH. apply insert_row_sorted. assumption.
Qed.

Lemma sort_from_Forall (P : Row -> Prop) (l acc : list Row) :
  Forall P l -> Forall P acc ->
  Forall P (fold_left (fun sorted x => insert_row x sorted) l acc).
Proof.
  revert acc. induction l as [|x l IH]; intros acc Hl Hacc; cbn.
  - assumption.
  - inversion Hl; subst. apply IH; [assumption|].
    apply insert_row_Forall; assumption.
Qed.

Lemma sort_from_Permutation (l acc : list Row) :
  Permutation (fold_left (fun sorted x => insert_row x sorted) l acc)
              (acc ++ l).
Proof.
  revert acc. induction l as [|x l IH]; intros acc; cbn.
  - rewrite app_nil_r. apply Permutation_refl.
  - eapply Permutation_trans; [apply IH|].
    eapply Permutation_trans;
      [apply Permutation_app_tail; apply insert_row_Permutation|].
    cbn. apply Permutation_middle.
Qed.

Lemma sort_rows_sorted (l : list Row) : StronglySorted name_le (sort_rows l).
Proof. apply sort_from_sorted. constructor. Qed.

Lemma sort_rows_Forall (P : Row -> Prop) (l : list Row) :
  Forall P l -> Forall P (sort_rows l).
Proof. intros H. apply sort_from_Forall; [assumption|constructor]. Qed.

(** The sorted list holds the same rows. *)
Lemma sort_rows_Permutation (l : list Row) : Permutation (sort_rows l) l.
Proof. apply (sort_from_Permutation l []). Qed.

(** *** What the scan puts where *)

Lemma locked_entry_kinds (fs : FS) (item : Path) (name : string)
    (directories files directories' files' : list Row) :
  Forall is_directory directories ->
  Forall is_file files ->
  locked_entry fs item name directories files = Ok (directories', files') ->
  Forall is_directory directories' /\ Forall is_file files'.
Proof.
  intros Hd Hf. unfold locked_entry.
  destruct (fs_is_dir fs item) as [e|[|]]; [discriminate|..];
    intros [= <- <-]; split; try assumption;
    apply Forall_snoc; try assumption; exact eq_refl.
Qed.

Lemma read_entry_kinds (fs : FS) (item : Path) (name : string)
    (directories files directories' files' : list Row) :
  Forall is_directory directories ->
  Forall is_file files ->
  read_entry fs item name directories files = Ok (directories', files') ->
  Forall is_directory directories' /\ Forall is_file files'.
Proof.
  intros Hd Hf. unfold read_entry.
  destruct (fs_stat_size fs item) as [e|st_size]; [discriminate|].
  destruct (fs_is_dir fs item) as [e|[|]]; [discriminate|..].
  - intros [= <- <-]. split; [|assumption].
    apply Forall_snoc; [assumption|exact eq_refl].
  - destruct (_format_size st_size) as [e|size]; [discriminate|].
    intros [= <- <-]. split; [assumption|].
    apply Forall_snoc; [assumption|exact eq_refl].
Qed.

Lemma scan_kinds (fs : FS) (directory : Path) (items : list string) :
  forall directories files directories' files',
    Forall is_directory directories ->
    Forall is_file files ->
    scan fs directory items directories files = Ok (directories', files') ->
    Forall is_directory directories' /\ Forall is_file files'.
Proof.
  induction items as [|name rest IH];
    intros directories files directories' files' Hd Hf; cbn [scan].
  - intros [= <- <-]. split; assumption.
  - destruct (skipped name); [apply IH; assumption|].
    destruct (read_entry fs (directory / name)%path name directories files)
      as [e|[d1 f1]] eqn:Hread.
    + destruct (is_OSError e); [|discriminate].
      destruct (locked_entry fs (directory / name)%path name directories files)
        as [e'|[d1 f1]] eqn:Hlocked; [discriminate|].
      destruct (locked_entry_kinds _ _ _ _ _ _ _ Hd Hf Hlocked).
      apply IH; assumption.
    + destruct (read_entry_kinds _ _ _ _ _ _ _ Hd Hf Hread).
      apply IH; assumption.
Qed.

(** *** The order of the rows *)

Lemma in_order_nav (a b : Row) : is_nav a -> in_order a b.
Proof.
  unfold in_order, is_nav, is_entry, is_directory, is_file.
  intros Ha. rewrite Ha. repeat split.
  - intros [[H|H] _]; discriminate.
  - intros [H _]; discriminate.
  - intros [[H _]|[H _]]; discriminate.
Qed.

Lemma in_order_directory_file (a b : Row) :
  is_directory a -> is_file b -> in_order a b.
Proof.
  unfold in_order, is_nav, is_entry, is_directory, is_file.
  intros Ha Hb. rewrite Ha, Hb. repeat split.
  - intros [_ H]; discriminate.
  - intros [H _]; discriminate.
  - intros [[_ H]|[H _]]; discriminate.
Qed.

Lemma in_order_directories (a b : Row) :
  is_directory a -> is_directory b -> name_le a b -> in_order a b.
Proof.
  unfold in_order, is_nav, is_entry, is_directory, is_file.
  intros Ha Hb Hle. rewrite Ha, Hb. repeat split.
  - intros [_ H]; discriminate.
  - intros [H _]; discriminate.
  - intros _. assumption.
Qed.

Lemma in_order_files (a b : Row) :
  is_file a -> is_file b -> name_le a b -> in_order a b.
Proof.
  unfold in_order, is_nav, is_entry, is_directory, is_file.
  intros Ha Hb Hle. rewrite Ha, Hb. repeat split.
  - intros [_ H]; discriminate.
  - intros [_ H]; discriminate.
  - intros _. assumption.
Qed.

Lemma entries_sorted (navs directories files : list Row) :
  Forall is_nav navs ->
  Forall is_directory directories ->
  Forall is_file files ->
  StronglySorted in_order
    (navs ++ sort_rows directories ++ sort_rows files).
Proof.
  intros Hn Hd Hf.
  apply (sort_rows_Forall is_directory) in Hd.
  apply (sort_rows_Forall is_file) in Hf.
  rewrite Forall_forall in Hn.
  apply StronglySorted_app.
  - clear Hd Hf. induction navs as [|a navs IH]; constructor.
    + apply IH. intros x Hx. apply Hn. right. assumption.
    + apply Forall_forall. intros b _. apply in_order_nav. apply Hn.
      left. reflexivity.
  - apply StronglySorted_app.
    + apply (StronglySorted_weaken name_le in_order is_directory);
        [apply in_order_directories|assumption|apply sort_rows_sorted].
    + apply (StronglySorted_weaken name_le in_order is_file);
        [apply in_order_files|assumption|apply sort_rows_sorted].
    + rewrite Forall_forall in Hd, Hf. intros a b Ha Hb.
      apply in_order_directory_file; [apply Hd|apply Hf]; assumption.
  - intros a b Ha _. apply in_order_nav. apply Hn. assumption.
Qed.

Lemma list_entries_sorted (fs : FS) (directory : Path)
    (history : list Path) (entries : list Row) :
  list_entries lower fs directory history = Ok entries ->
  StronglySorted in_order entries.
Proof.
  unfold list_entries.
  destruct (fs_iterdir fs directory) as [e|items]; [discriminate|].
  destruct (scan fs directory items [] []) as [e|[directories files]] eqn:Hscan;
    [discriminate|].
  intros [= <-].
  destruct (scan_kinds fs directory items [] [] directories files
              (Forall_nil _) (Forall_nil _) Hscan) as [Hd Hf].
  rewrite app_assoc. apply entries_sorted; [|assumption..].
  apply Forall_app. split.
  - destruct history; repeat constructor.
  - destruct (path_eqb (parent directory) directory); repeat constructor.
Qed.

(** C5.  Whatever [load_directory] leaves in the table is in order:
    no entry stands before a navigation row, no file before a
    directory, and two directories, or two files, stand in the
    case-insensitive order of their names. *)
Theorem load_directory_ordered (fs : FS) (directory : Path)
    (add_to_history : bool) (t : FileTable) :
  Listing_ordered lower
    (table_rows (fst (load_directory lower fs directory add_to_history t))).
Proof.
  unfold Listing_ordered. apply StronglySorted_nth.
  unfold load_directory.
  destruct (missing_or_not_dir fs directory) as [e|[|]];
    [cbn; constructor..|].
  match goal with
  | |- context [list_entries lower fs directory ?h] =>
      destruct (list_entries lower fs directory h) as [e|entries] eqn:Hl
  end.
  - destruct e; cbn; repeat constructor.
  - cbn. eapply list_entries_sorted. eassumption.
Qed.

(** C6.  When listing the directory itself is refused, the table
    holds the error row and nothing else: one row, neither a
    navigation row nor an entry; the method returns normally. *)
Theorem load_directory_permission_denied (fs : FS) (directory : Path)
    (add_to_history : bool) (t : FileTable) :
  fs_exists fs directory = Ok true ->
  fs_is_dir fs directory = Ok true ->
  fs_iterdir fs directory = Raise PermissionError ->
  let loaded := load_directory lower fs directory add_to_history t in
  table_rows (fst loaded) = [error_row]
  /\ snd loaded = None
  /\ ~ is_nav error_row
  /\ ~ is_entry error_row.
Proof.
  intros He Hd Hi. cbv zeta.
  unfold load_directory, list_entries, missing_or_not_dir.
  rewrite He, Hd, Hi. cbn. repeat split.
  - unfold is_nav. cbn. discriminate.
  - unfold is_entry, is_directory, is_file. cbn. intros [H|H]; discriminate.
Qed.

End ListingFacts.

Lemma load_directory_ordered_witness :
  in_order ascii_lower
    (dir_row "notes" "3 items") (file_row "Readme.txt" "2KB").
Proof.
  apply (load_directory_ordered ascii_lower Fixture.fs_ws Fixture.ws true
           (file_table (init Fixture.ws)) 3%nat 4%nat);
    [repeat constructor | vm_compute; reflexivity ..].
Defined.

Lemma load_directory_permission_denied_witness :
  table_rows
    (fst (load_directory ascii_lower Fixture.fs_ws ["ws"; "archive"] true
            (file_table (Fixture.mounted Fixture.fs_ws Fixture.ws))))
  = [error_row].
Proof.
  apply (load_directory_permission_denied ascii_lower Fixture.fs_ws
           ["ws"; "archive"] true
           (file_table (Fixture.mounted Fixture.fs_ws Fixture.ws))
           eq_refl eq_refl eq_refl).
Defined.

(** ** Handlers *)

Lemma outcome_eta {A : Type} (o : Outcome A) :
  {| result := result o; final := final o; notices := notices o |} = o.
Proof. destruct o. reflexivity. Qed.

Lemma bind_get {A : Type} (k : App -> M A) (app : App) :
  (x <- get ;; k x) app = k app app.
Proof. unfold bind, get. cbn. apply outcome_eta. Qed.

Lemma bind_modify {A : Type} (f : App -> App) (k : M A) (app : App) :
  (modify f ;; k) app = k (f app).
Proof. unfold bind, modify. cbn. apply outcome_eta. Qed.

Lemma bind_ret {A B : Type} (a : A) (k : A -> M B) (app : App) :
  (x <- ret a ;; k x) app = k a app.
Proof. unfold bind, ret. cbn. apply outcome_eta. Qed.

Lemma bind_final {A B : Type} (m : M A) (k : A -> M B) (app : App) :
  final ((x <- m ;; k x) app) =
    match result (m app) with
    | inl _ => final (m app)
    | inr a => final (k a (final (m app)))
    end.
Proof. unfold bind. destruct (result (m app)); reflexivity. Qed.

Lemma set_file_table_same (app : App) :
  set_file_table (file_table app) app = app.
Proof. destruct app. reflexivity. Qed.

Lemma check_logseq_structure_unfold (fs : FS) (path : option Path)
    (app : App) :
  check_logseq_structure fs path app =
    let target_path :=
      match path with
      | Some p => p
      | None => current_directory app
      end in
    let checked := status_check fs target_path (logseq_status app) in
    {| result :=
         match snd checked with
         | Some e => Raise e
         | None => Ok tt
         end;
       final := set_logseq_status (fst checked) app;
       notices := [] |}.
Proof.
  unfold check_logseq_structure. rewrite bind_get. cbv zeta.
  destruct (status_check fs _ (logseq_status app)) as [status [e|]];
    reflexivity.
Qed.

Lemma path_eqb_eq (p q : Path) : path_eqb p q = true <-> p = q.
Proof.
  unfold path_eqb. destruct (path_eq_dec p q); split; congruence.
Qed.

Lemma path_eqb_neq (p q : Path) : path_eqb p q = false <-> p <> q.
Proof.
  unfold path_eqb. destruct (path_eq_dec p q); split; congruence.
Qed.

Lemma path_eqb_refl (p : Path) : path_eqb p p = true.
Proof. apply path_eqb_eq. reflexivity. Qed.

Section SelectorFacts.

Variable lower : string -> string.

Local Abbreviation load_directory := (load_directory lower).
Local Abbreviation refresh_all := (refresh_all lower).
Local Abbreviation navigate := (navigate lower).
Local Abbreviation action_go_back := (action_go_back lower).
Local Abbreviation handle := (handle lower).

(** *** [load_directory] and the history *)

Lemma load_directory_current (fs : FS) (directory : Path) (b : bool)
    (t : FileTable) :
  table_current_directory (fst (load_directory fs directory b t))
  = Some directory.
Proof.
  unfold load_directory.
  destruct (missing_or_not_dir fs directory) as [e|[|]];
    [reflexivity..|].
  match goal with
  | |- context [list_entries lower fs directory ?h] =>
      destruct (list_entries lower fs directory h) as [[]|]
  end; reflexivity.
Qed.

Lemma load_directory_history (fs : FS) (directory : Path) (t : FileTable) :
  directory_history (fst (load_directory fs directory true t)) =
    match table_current_directory t with
    | Some current =>
        if path_eqb current directory then directory_history t
        else (directory_history t ++ [current])%list
    | None => directory_history t
    end.
Proof.
  unfold load_directory.
  destruct (missing_or_not_dir fs directory) as [e|[|]].
  - cbn. destruct (table_current_directory t) as [c|]; [|reflexivity].
    destruct (path_eqb c directory); reflexivity.
  - cbn. destruct (table_current_directory t) as [c|]; [|reflexivity].
    destruct (path_eqb c directory); reflexivity.
  - match goal with
    | |- context [list_entries lower fs directory ?h] =>
        destruct (list_entries lower fs directory h) as [[]|]
    end; cbn; (destruct (table_current_directory t) as [c|]; [|reflexivity]);
      destruct (path_eqb c directory); reflexivity.
Qed.

(** *** [refresh_all] and [navigate] *)

Lemma refresh_all_unfold (fs : FS) (app : App) :
  refresh_all fs app =
    let shown :=
      set_path_input (path_str (current_directory app))
        (set_sub_title ("📂 " ++ path_name (current_directory app)) app) in
    let loaded :=
      load_directory fs (current_directory app) true (file_table app) in
    match snd loaded with
    | Some e =>
        {| result := Raise e;
           final := set_file_table (fst loaded) shown;
           notices := [] |}
    | None =>
        let checked :=
          status_check fs (current_directory app) (logseq_status app) in
        {| result :=
             match snd checked with
             | Some e => Raise e
             | None => Ok tt
             end;
           final :=
             set_logseq_status (fst checked)
               (set_file_table (fst loaded) shown);
           notices := [] |}
    end.
Proof.
  unfold refresh_all.
  rewrite bind_get, !bind_modify.
  unfold table_load_directory.
  cbn [current_directory set_path_input set_sub_title].
  unfold bind at 1. rewrite bind_get.
  cbn [file_table set_path_input set_sub_title].
  destruct (load_directory fs (current_directory app) true (file_table app))
    as [table [e|]]; [reflexivity|].
  cbn. unfold check_logseq_structure, bind, get, modify. cbn.
  destruct (status_check fs (current_directory app) (logseq_status app))
    as [status [e|]]; reflexivity.
Qed.

Lemma refresh_all_current (fs : FS) (app : App) :
  current_directory (final (refresh_all fs app)) = current_directory app.
Proof.
  rewrite refresh_all_unfold. cbv zeta.
  destruct (snd _); reflexivity.
Qed.

Lemma refresh_all_selected (fs : FS) (app : App) :
  selected_directory (final (refresh_all fs app)) = selected_directory app.
Proof.
  rewrite refresh_all_unfold. cbv zeta.
  destruct (snd _); reflexivity.
Qed.

Lemma refresh_all_table (fs : FS) (app : App) :
  file_table (final (refresh_all fs app)) =
    fst (load_directory fs (current_directory app) true (file_table app)).
Proof.
  rewrite refresh_all_unfold. cbv zeta.
  destruct (snd _); reflexivity.
Qed.

Lemma status_check_returns (fs : FS) (path : Path) (status : LogSeqStatus) :
  snd (status_check fs path status) = None ->
  exists result,
    validate_logseq_structure fs path = Ok result
    /\ fst (status_check fs path status) = status_shown path result.
Proof.
  unfold status_check.
  destruct (validate_logseq_structure fs path) as [e|result];
    [discriminate|].
  intros _. exists result. split; reflexivity.
Qed.


(** A refresh that returns has loaded the table and run the
    validator, both without an exception. *)
Lemma refresh_all_returns_inv (fs : FS) (app : App) :
  returns (refresh_all fs app) ->
  snd (load_directory fs (current_directory app) true (file_table app)) = None
  /\ exists result,
       validate_logseq_structure fs (current_directory app) = Ok result
       /\ logseq_status (final (refresh_all fs app))
          = status_shown (current_directory app) result.
Proof.
  unfold returns. rewrite refresh_all_unfold. cbv zeta.
  destruct (snd (load_directory _ _ _ _)); cbn;
    [intros [a H]; discriminate|].
  destruct (snd (status_check _ _ _)) eqn:Hs; cbn;
    [intros [a H]; discriminate|].
  intros _. split; [reflexivity|].
  apply status_check_returns. assumption.
Qed.

Lemma refresh_all_status (fs : FS) (app : App) :
  returns (refresh_all fs app) ->
  exists result,
    validate_logseq_structure fs (current_directory app) = Ok result
    /\ logseq_status (final (refresh_all fs app))
       = status_shown (current_directory app) result.
Proof. intros H. apply refresh_all_returns_inv. assumption. Qed.

Lemma refresh_all_notices (fs : FS) (app : App) :
  notices (refresh_all fs app) = [].
Proof.
  rewrite refresh_all_unfold. cbv zeta.
  destruct (snd _); reflexivity.
Qed.

Lemma navigate_unfold (fs : FS) (p : Path) (app : App) :
  navigate fs p app = refresh_all fs (set_current_directory p app).
Proof. unfold navigate. apply bind_modify. Qed.

Lemma navigate_current (fs : FS) (p : Path) (app : App) :
  current_directory (final (navigate fs p app)) = p.
Proof. rewrite navigate_unfold, refresh_all_current. reflexivity. Qed.

Lemma navigate_table (fs : FS) (p : Path) (app : App) :
  file_table (final (navigate fs p app)) =
    fst (load_directory fs p true (file_table app)).
Proof. rewrite navigate_unfold, refresh_all_table. reflexivity. Qed.

Lemma navigate_history (fs : FS) (p c : Path) (app : App) :
  table_current_directory (file_table app) = Some c ->
  history (final (navigate fs p app)) =
    if path_eqb c p then history app else (history app ++ [c])%list.
Proof.
  intros Hc. unfold history. rewrite navigate_table, load_directory_history.
  rewrite Hc. reflexivity.
Qed.

Lemma navigate_table_current (fs : FS) (p : Path) (app : App) :
  table_current_directory (file_table (final (navigate fs p app))) = Some p.
Proof. rewrite navigate_table. apply load_directory_current. Qed.

(** *** [action_go_back] *)

Lemma action_go_back_empty (fs : FS) (app : App) :
  history app = [] ->
  action_go_back fs app =
    {| result := Ok tt; final := app; notices := [Already_at_start] |}.
Proof.
  unfold history. intros Hh.
  unfold action_go_back. rewrite bind_get.
  unfold go_back. rewrite Hh. rewrite bind_modify.
  rewrite set_file_table_same. reflexivity.
Qed.

Lemma action_go_back_pops (fs : FS) (app : App) :
  history app <> [] ->
  action_go_back fs app = navigate fs (last (history app) []) (popped app).
Proof.
  unfold history, popped. intros Hh.
  unfold action_go_back. rewrite bind_get.
  unfold go_back, history.
  destruct (directory_history (file_table app)) as [|p h] eqn:E;
    [congruence|].
  rewrite bind_modify. reflexivity.
Qed.

End SelectorFacts.

(** ** The history in a session *)

Lemma set_current_directory_same (app : App) :
  set_current_directory (current_directory app) app = app.
Proof. destruct app. reflexivity. Qed.

Lemma history_grows_refl (app : App) : history_inv app -> history_grows app app.
Proof. intros H. split; [assumption|apply Nat.le_refl]. Qed.

Lemma history_grows_trans (a b c : App) :
  history_grows a b -> history_grows b c -> history_grows a c.
Proof.
  intros [_ Hab] [Hc Hbc]. split; [assumption|].
  eapply Nat.le_trans; eassumption.
Qed.

(** A handler that leaves the table and the directory alone. *)
Lemma history_grows_frame (app app' : App) :
  file_table app' = file_table app ->
  current_directory app' = current_directory app ->
  history_inv app ->
  history_grows app app'.
Proof.
  unfold history_grows, history_inv, history. intros -> -> H.
  split; [assumption|apply Nat.le_refl].
Qed.

Lemma removelast_length_S {A : Type} (l : list A) (d : A) :
  l <> [] -> S (List.length (removelast l)) = List.length l.
Proof.
  intros Hl. rewrite (app_removelast_last d Hl) at 2.
  rewrite length_app. cbn. lia.
Qed.

Section SessionFacts.

Variable lower : string -> string.

Lemma refresh_all_navigate (fs : FS) (app : App) :
  refresh_all lower fs app = navigate lower fs (current_directory app) app.
Proof. rewrite navigate_unfold, set_current_directory_same. reflexivity. Qed.

(** Changing directory from a table that shows [c]. *)
Lemma navigate_inv (fs : FS) (p c : Path) (app : App) :
  table_current_directory (file_table app) = Some c ->
  (c = p -> history app = [] \/ last (history app) [] <> p) ->
  history_inv (final (navigate lower fs p app)).
Proof.
  intros Hc Hsame. unfold history_inv.
  rewrite navigate_table_current, navigate_current.
  split; [reflexivity|].
  rewrite (navigate_history lower fs p c app Hc).
  destruct (path_eqb c p) eqn:E.
  - apply Hsame. apply path_eqb_eq. assumption.
  - right. rewrite last_last. apply path_eqb_neq. assumption.
Qed.

Lemma navigate_grows (fs : FS) (p : Path) (app : App) :
  history_inv app -> history_grows app (final (navigate lower fs p app)).
Proof.
  intros [Hc Hh]. split.
  - apply (navigate_inv fs p (current_directory app) app Hc).
    intros <-. assumption.
  - rewrite (navigate_history lower fs p _ app Hc).
    destruct (path_eqb (current_directory app) p); [apply Nat.le_refl|].
    rewrite length_app. cbn. lia.
Qed.

Lemma refresh_all_grows (fs : FS) (app : App) :
  history_inv app -> history_grows app (final (refresh_all lower fs app)).
Proof. rewrite refresh_all_navigate. apply navigate_grows. Qed.

(** A pop followed by the reload: the directory left takes the
    place of the entry popped. *)
Lemma action_go_back_swaps (fs : FS) (app : App) :
  history_inv app ->
  history app <> [] ->
  let o := action_go_back lower fs app in
  current_directory (final o) = last (history app) []
  /\ history (final o)
     = (removelast (history app) ++ [current_directory app])%list
  /\ current_directory (final o) <> current_directory app
  /\ history_inv (final o).
Proof.
  intros [Hc Hh] Hne. cbv zeta.
  destruct Hh as [Hh|Hh]; [contradiction|].
  rewrite (action_go_back_pops lower fs app Hne).
  assert (Hpc : table_current_directory (file_table (popped app))
                = Some (current_directory app)) by exact Hc.
  rewrite navigate_current.
  rewrite (navigate_history lower fs _ _ (popped app) Hpc).
  assert (E : path_eqb (current_directory app) (last (history app) []) = false).
  { apply path_eqb_neq. congruence. }
  rewrite E. split; [reflexivity|]. split; [reflexivity|].
  split; [assumption|].
  apply (navigate_inv fs _ (current_directory app) (popped app) Hpc).
  intros Heq. congruence.
Qed.

Lemma action_go_back_grows (fs : FS) (app : App) :
  history_inv app -> history_grows app (final (action_go_back lower fs app)).
Proof.
  intros Hinv. destruct (history app) as [|p h] eqn:Hh.
  - rewrite (action_go_back_empty lower fs app Hh). cbn.
    apply history_grows_refl. assumption.
  - assert (Hne : history app <> []) by (rewrite Hh; discriminate).
    destruct (action_go_back_swaps fs app Hinv Hne) as (_ & Hhist & _ & Hinv').
    split; [assumption|].
    rewrite Hhist, length_app. cbn [List.length].
    rewrite <- (removelast_length_S (history app) [] Hne). lia.
Qed.

(** *** Every handler *)

Lemma bind_grows {A : Type} (m : M A) (k : A -> M unit) :
  (forall app, history_inv app -> history_grows app (final (m app))) ->
  (forall a, grows_from (k a)) ->
  grows_from (x <- m ;; k x).
Proof.
  intros Hm Hk app Hinv. rewrite bind_final.
  destruct (result (m app)) as [e|a].
  - apply Hm. assumption.
  - eapply history_grows_trans; [apply Hm; assumption|].
    apply Hk. apply Hm. assumption.
Qed.

Lemma get_row_same (key : Key) (app : App) :
  final (get_row key app) = app.
Proof.
  unfold get_row. rewrite bind_get.
  destruct key as [position|index]; [|reflexivity].
  destruct (nth_error (table_rows (file_table app)) position); reflexivity.
Qed.

Lemma ret_grows : grows_from (ret tt).
Proof. intros app Hinv. apply history_grows_refl. assumption. Qed.

Lemma notify_grows (n : Notice) : grows_from (notify n).
Proof. intros app Hinv. apply history_grows_refl. assumption. Qed.

Lemma check_logseq_structure_grows (fs : FS) (path : option Path) :
  grows_from (check_logseq_structure fs path).
Proof.
  intros app Hinv. rewrite check_logseq_structure_unfold.
  apply history_grows_frame; [reflexivity..|assumption].
Qed.

Lemma action_select_current_grows : grows_from action_select_current.
Proof.
  intros app Hinv. unfold action_select_current. rewrite bind_get.
  destruct (is_valid (logseq_status app)).
  - apply history_grows_frame; [reflexivity..|assumption].
  - apply history_grows_refl. assumption.
Qed.

Lemma action_refresh_grows (fs : FS) : grows_from (action_refresh lower fs).
Proof.
  unfold action_refresh. apply bind_grows.
  - apply refresh_all_grows.
  - intros _. apply notify_grows.
Qed.

Lemma on_file_table_row_selected_grows (fs : FS) (row_key : nat) :
  grows_from (on_file_table_row_selected lower fs row_key).
Proof.
  intros app Hinv. unfold on_file_table_row_selected. rewrite bind_get.
  destruct (table_current_directory (file_table app)) as [table_dir|];
    [|apply history_grows_refl; assumption].
  revert app Hinv. apply bind_grows.
  - intros app Hinv. rewrite get_row_same.
    apply history_grows_refl. assumption.
  - intros row_data app Hinv.
    destruct (row_name row_data =? back_name)%string;
      [apply action_go_back_grows; assumption|].
    destruct (row_name row_data =? up_name)%string;
      [apply navigate_grows; assumption|].
    destruct (row_type row_data =? "DIR")%string;
      [apply check_logseq_structure_grows; assumption|].
    apply history_grows_refl. assumption.
Qed.

Lemma action_open_selected_grows (fs : FS) (cursor_row : option nat) :
  grows_from (action_open_selected lower fs cursor_row).
Proof.
  intros app Hinv. unfold action_open_selected. rewrite bind_get.
  destruct cursor_row as [key|]; [|apply history_grows_refl; assumption].
  destruct (table_current_directory (file_table app)) as [table_dir|];
    [|apply history_grows_refl; assumption].
  revert app Hinv. apply bind_grows.
  - intros app Hinv. rewrite get_row_same.
    apply history_grows_refl. assumption.
  - intros row_data app Hinv.
    destruct (row_name row_data =? back_name)%string;
      [apply action_go_back_grows; assumption|].
    destruct (row_name row_data =? up_name)%string;
      [apply navigate_grows; assumption|].
    destruct (row_type row_data =? "DIR")%string;
      [apply navigate_grows; assumption|].
    apply history_grows_refl. assumption.
Qed.

Lemma on_input_submitted_grows (fs : FS) (input_id value : string) :
  grows_from (on_input_submitted lower fs input_id value).
Proof.
  intros app Hinv. unfold on_input_submitted.
  destruct (input_id =? "path-input")%string;
    [|apply history_grows_refl; assumption].
  unfold try_except.
  set (body := (new_path <- lift (fs_resolve fs value) ;; _)).
  assert (Hbody : history_grows app (final (body app))).
  { unfold body. revert app Hinv. apply bind_grows.
    - intros app Hinv. destruct (fs_resolve fs value); cbn;
        apply history_grows_refl; assumption.
    - intros new_path. apply bind_grows.
      + intros app Hinv. destruct (exists_and_is_dir fs new_path); cbn;
          apply history_grows_refl; assumption.
      + intros [|] app Hinv.
        * apply navigate_grows. assumption.
        * apply history_grows_refl. assumption. }
  destruct (result (body app)); assumption.
Qed.

Lemma on_button_pressed_grows (fs : FS) (button_id : string) :
  grows_from (on_button_pressed lower fs button_id).
Proof.
  intros app Hinv. unfold on_button_pressed.
  destruct (button_id =? "select-btn")%string;
    [apply action_select_current_grows; assumption|].
  destruct (button_id =? "refresh-btn")%string;
    [apply action_refresh_grows; assumption|].
  destruct (button_id =? "back-btn")%string;
    [apply action_go_back_grows; assumption|].
  apply history_grows_refl. assumption.
Qed.

Lemma handle_grows (fs : FS) (ev : Event) : grows_from (handle lower fs ev).
Proof.
  destruct ev; cbn [handle].
  - apply on_file_table_row_selected_grows.
  - apply on_input_submitted_grows.
  - apply on_button_pressed_grows.
  - apply action_refresh_grows.
  - apply ret_grows.
  - apply action_open_selected_grows.
  - intros app. apply action_go_back_grows.
  - apply action_select_current_grows.
Qed.

Lemma step_grows (app app' : App) :
  history_inv app -> step lower app app' -> history_grows app app'.
Proof.
  intros Hinv (fs & ev & _ & <-). apply handle_grows. assumption.
Qed.

Lemma mount_inv (fs : FS) (cwd : Path) :
  history_inv (final (on_mount lower fs (init cwd)))
  /\ history (final (on_mount lower fs (init cwd))) = [].
Proof.
  unfold on_mount, history_inv, history.
  rewrite refresh_all_table, refresh_all_current.
  rewrite load_directory_current, load_directory_history. cbn.
  split; [split; [reflexivity|left; reflexivity]|reflexivity].
Qed.

Lemma session_inv (cwd : Path) (app : App) :
  session lower cwd app -> history_inv app.
Proof.
  induction 1 as [fs Hret|app app' Hs IH Hstep].
  - apply mount_inv.
  - apply (step_grows app app' IH Hstep).
Qed.

Lemma later_grows (app app' : App) :
  history_inv app -> later lower app app' -> history_grows app app'.
Proof.
  intros Hinv Hl. induction Hl as [|app' app'' Hl IH Hstep].
  - apply history_grows_refl. assumption.
  - eapply history_grows_trans; [exact IH|].
    apply step_grows; [apply IH|assumption].
Qed.

(** C9.  In a session, once the history holds an entry it is never
    empty again, whatever events follow.  From such a state a GoBack
    pops the last entry and moves there, and the reload pushes the
    directory left, which differs from the entry popped: the history
    is as long as before, and a second GoBack restores the directory
    and the history of the start, so that repeated GoBack alternates
    between two directories. *)
Theorem history_never_empties (cwd : Path) (app : App) :
  session lower cwd app ->
  history app <> [] ->
  (forall app', later lower app app' -> history app' <> [])
  /\ (forall fs,
        let o := action_go_back lower fs app in
        List.length (history (final o)) = List.length (history app)
        /\ current_directory (final o) = last (history app) []
        /\ history (final o)
           = (removelast (history app) ++ [current_directory app])%list
        /\ last (history app) [] <> current_directory app)
  /\ (forall fs fs',
        let o := action_go_back lower fs app in
        let o' := action_go_back lower fs' (final o) in
        current_directory (final o') = current_directory app
        /\ history (final o') = history app).
Proof.
  intros Hs Hne. pose proof (session_inv cwd app Hs) as Hinv.
  split; [|split].
  - intros app' Hl. destruct (later_grows app app' Hinv Hl) as [_ Hlen].
    destruct (history app); [congruence|].
    destruct (history app'); [cbn in Hlen; lia|discriminate].
  - intros fs. cbv zeta.
    destruct (action_go_back_swaps fs app Hinv Hne) as (Hc & Hh & Hd & _).
    rewrite Hh, Hc in *. repeat split; try assumption.
    rewrite length_app. cbn [List.length].
    rewrite <- (removelast_length_S (history app) [] Hne). lia.
  - intros fs fs'. cbv zeta.
    destruct (action_go_back_swaps fs app Hinv Hne) as (Hc & Hh & _ & Hinv1).
    assert (Hne1 : history (final (action_go_back lower fs app)) <> []).
    { rewrite Hh. intros E. apply app_eq_nil in E as [_ E]. discriminate. }
    destruct (action_go_back_swaps fs' _ Hinv1 Hne1) as (Hc2 & Hh2 & _ & _).
    rewrite Hc2, Hh2, Hh, Hc. rewrite last_last, removelast_last.
    split; [reflexivity|].
    symmetry. apply app_removelast_last. assumption.
Qed.

End SessionFacts.

Lemma history_never_empties_witness :
  history Fixture.visited = [Fixture.ws]
  /\ history (final (action_go_back ascii_lower Fixture.fs_ws Fixture.visited))
     = [Fixture.notes]
  /\ current_directory
       (final (action_go_back ascii_lower Fixture.fs_ws Fixture.visited))
     = Fixture.ws.
Proof.
  assert (Hs : session ascii_lower Fixture.ws Fixture.visited).
  { apply (session_step ascii_lower Fixture.ws
             (Fixture.mounted Fixture.fs_ws Fixture.ws)).
    - apply (session_mount ascii_lower Fixture.ws Fixture.fs_ws).
      exists tt. vm_compute. reflexivity.
    - exists Fixture.fs_ws, (InputSubmitted "path-input" "/ws/notes").
      split; [exists tt|]; vm_compute; reflexivity. }
  assert (Hne : history Fixture.visited <> []) by (vm_compute; discriminate).
  destruct (history_never_empties ascii_lower Fixture.ws Fixture.visited Hs Hne)
    as (_ & Hback & _).
  destruct (Hback Fixture.fs_ws) as (_ & Hc & Hh & _).
  split; [vm_compute; reflexivity|]. split.
  - rewrite Hh. vm_compute. reflexivity.
  - rewrite Hc. vm_compute. reflexivity.
Defined.

(** ** GoBack after one navigation *)

Section BackFacts.

Variable lower : string -> string.

(** From a state with an empty history, one change of directory to
    [p] and one GoBack lead back to the directory of the start, with
    [p] on the history. *)
Lemma navigate_then_go_back (fs fs' : FS) (p : Path) (app : App) :
  history_inv app ->
  history app = [] ->
  p <> current_directory app ->
  let there := final (navigate lower fs p app) in
  let back := final (action_go_back lower fs' there) in
  current_directory back = current_directory app /\ history back = [p].
Proof.
  intros Hinv Hh Hp. cbv zeta.
  pose proof (navigate_grows lower fs p app Hinv) as [Hinv1 _].
  pose proof (navigate_history lower fs p _ app (proj1 Hinv)) as Hh1.
  assert (E : path_eqb (current_directory app) p = false)
    by (apply path_eqb_neq; congruence).
  rewrite E, Hh, app_nil_l in Hh1.
  assert (Hne : history (final (navigate lower fs p app)) <> [])
    by (rewrite Hh1; discriminate).
  destruct (action_go_back_swaps lower fs' _ Hinv1 Hne) as (Hc & Hh2 & _ & _).
  rewrite Hc, Hh2, Hh1, navigate_current. split; reflexivity.
Qed.

End BackFacts.

(** C1.  The session starts in [/ws]; the path of [/ws/notes],
    typed in, takes it there, by the one forward change of directory,
    which returns; and GoBack returns to [/ws].  The history is empty
    at the start and after the two events it holds [/ws/notes]: the
    reload that ends GoBack has pushed the directory left.  The same
    holds when the way forward and back is the row that leads up,
    selected in [/ws/notes], and GoBack by its button. *)
Theorem go_back_after_navigate_keeps_history :
  let start := Fixture.mounted Fixture.fs_ws Fixture.ws in
  let forward := InputSubmitted "path-input" "/ws/notes" in
  let there := handle ascii_lower Fixture.fs_ws forward start in
  let o := run ascii_lower
             [(Fixture.fs_ws, forward); (Fixture.fs_ws, KeyBack)] start in
  let start' := Fixture.mounted Fixture.fs_ws Fixture.notes in
  let o' := run ascii_lower
              [(Fixture.fs_ws, RowSelected 0%nat);
               (Fixture.fs_ws, ButtonPressed "back-btn")] start' in
  (result (on_mount ascii_lower Fixture.fs_ws (init Fixture.ws)) = Ok tt
   /\ current_directory start = Fixture.ws
   /\ history start = []
   /\ result there = Ok tt
   /\ current_directory (final there) = Fixture.notes
   /\ history (final there) = [Fixture.ws]
   /\ result o = Ok tt
   /\ current_directory (final o) = Fixture.ws
   /\ history (final o) = [Fixture.notes])
  /\ (current_directory start' = Fixture.notes
      /\ history start' = []
      /\ nth_error (table_rows (file_table start')) 0 = Some up_row
      /\ result o' = Ok tt
      /\ current_directory (final o') = Fixture.notes
      /\ history (final o') = [Fixture.ws]).
Proof. vm_compute. repeat split; reflexivity. Qed.

(** ** Select *)

Lemma action_select_current_valid (app : App) :
  is_valid (logseq_status app) = true ->
  action_select_current app =
    {| result := Ok tt;
       final := set_selected_directory (Some (current_directory app)) app;
       notices :=
         [Selected (path_name (current_directory app));
          Printed ("Selected LogSeq directory: "
                   ++ path_str (current_directory app))] |}.
Proof.
  intros Hv. unfold action_select_current. rewrite bind_get, Hv.
  rewrite bind_modify. reflexivity.
Qed.

Lemma action_select_current_invalid (app : App) :
  is_valid (logseq_status app) = false ->
  action_select_current app =
    {| result := Ok tt; final := app; notices := [Cannot_select] |}.
Proof.
  intros Hv. unfold action_select_current. rewrite bind_get, Hv. reflexivity.
Qed.

Lemma selection_reported_iff (app : App) :
  selection_reported (action_select_current app)
  <-> is_valid (logseq_status app) = true.
Proof.
  unfold selection_reported.
  destruct (is_valid (logseq_status app)) eqn:Hv.
  - rewrite (action_select_current_valid app Hv). cbn [notices]. split.
    + reflexivity.
    + intros _. eexists. left. reflexivity.
  - rewrite (action_select_current_invalid app Hv). cbn [notices]. split.
    + intros [name [H|[]]]. discriminate.
    + discriminate.
Qed.

(** What a refresh that returned has stored is the verdict of the
    current directory. *)
Lemma refresh_all_verdict (lower : string -> string) (fs : FS) (app : App) :
  returns (refresh_all lower fs app) ->
  let shown := final (refresh_all lower fs app) in
  is_valid (logseq_status shown) = true <->
  exists summary,
    validate_logseq_structure fs (current_directory shown)
    = Ok (true, summary).
Proof.
  intros Hret. cbv zeta. rewrite refresh_all_current.
  destruct (refresh_all_status lower fs app Hret)
    as ([valid summary] & Hv & ->).
  rewrite Hv. cbn [is_valid status_shown fst]. split.
  - intros ->. exists summary. reflexivity.
  - intros [summary' H]. congruence.
Qed.

(** C2, as the code has it.  Select reads the verdict that the last
    refresh stored, for the directory shown and on the file system as
    it was then, and computes nothing itself: after a refresh that
    returned, Select reports a selection exactly when that verdict was
    valid, and then sets [selected_directory] to the current directory
    and changes nothing else; otherwise it reports the rejection and
    leaves the state as it was. *)
Theorem select_after_refresh (lower : string -> string) (fs : FS) (app : App) :
  returns (refresh_all lower fs app) ->
  let shown := final (refresh_all lower fs app) in
  let o := action_select_current shown in
  (selection_reported o <->
   exists summary,
     validate_logseq_structure fs (current_directory shown)
     = Ok (true, summary))
  /\ (selection_reported o ->
      final o = set_selected_directory (Some (current_directory shown)) shown)
  /\ (~ selection_reported o ->
      final o = shown /\ notices o = [Cannot_select]).
Proof.
  intros Hret. cbv zeta.
  pose proof (refresh_all_verdict lower fs app Hret) as Hv. cbv zeta in Hv.
  set (shown := final (refresh_all lower fs app)) in *.
  rewrite <- Hv. split; [apply selection_reported_iff|]. split.
  - intros Hrep. apply selection_reported_iff in Hrep.
    rewrite (action_select_current_valid shown Hrep). reflexivity.
  - intros Hrep.
    destruct (is_valid (logseq_status shown)) eqn:E.
    + exfalso. apply Hrep. apply selection_reported_iff. assumption.
    + rewrite (action_select_current_invalid shown E). split; reflexivity.
Qed.

Lemma select_after_refresh_witness :
  selection_reported
    (action_select_current
       (final (refresh_all ascii_lower Fixture.fs_ws (init Fixture.notes)))).
Proof.
  assert (Hret : returns (refresh_all ascii_lower Fixture.fs_ws
                            (init Fixture.notes)))
    by (exists tt; vm_compute; reflexivity).
  apply (proj1 (select_after_refresh ascii_lower Fixture.fs_ws
                  (init Fixture.notes) Hret)).
  eexists. vm_compute. reflexivity.
Defined.

(** Counterexample to C2 as stated, twice over.  In [/ws], which is
    no workspace, selecting the row of the workspace [notes] stores the
    verdict of [/ws/notes], and Select then selects [/ws].  And in
    [/ws/notes], shown while it was a workspace, Select still selects
    it once the three folders are gone. *)
Lemma select_not_decided_at_call :
  (current_directory Fixture.previewed = Fixture.ws
   /\ selection_reported (action_select_current Fixture.previewed)
   /\ selected_directory (final (action_select_current Fixture.previewed))
      = Some Fixture.ws
   /\ verdict Fixture.fs_ws Fixture.ws = Ok false)
  /\ (selection_reported
        (handle ascii_lower Fixture.fs_emptied KeySelect
           (Fixture.mounted Fixture.fs_ws Fixture.notes))
      /\ selected_directory
           (final (handle ascii_lower Fixture.fs_emptied KeySelect
                     (Fixture.mounted Fixture.fs_ws Fixture.notes)))
         = Some Fixture.notes
      /\ verdict Fixture.fs_emptied Fixture.notes = Ok false).
Proof.
  split.
  - split; [vm_compute; reflexivity|]. split.
    + exists "ws". vm_compute. left. reflexivity.
    + split; vm_compute; reflexivity.
  - split.
    + exists "notes". vm_compute. left. reflexivity.
    + split; vm_compute; reflexivity.
Qed.

(** ** Activating a row *)

Lemma remove_all_free (old s : string) :
  free_of old s -> remove_all old 0 s = s.
Proof.
  induction s as [|c rest IH]; intros Hfree.
  - reflexivity.
  - destruct Hfree as [Hp Hrest]. cbn [remove_all]. rewrite Hp.
    rewrite (IH Hrest). reflexivity.
Qed.

Lemma prefix_empty (s : string) : String.prefix EmptyString s = true.
Proof. destruct s; reflexivity. Qed.




Lemma get_row_some (key : nat) (row : Row) (app : App) :
  nth_error (table_rows (file_table app)) key = Some row ->
  get_row (RowKey key) app = ret row app.
Proof. intros H. unfold get_row. rewrite bind_get, H. reflexivity. Qed.

Lemma bind_get_row {A : Type} (key : nat) (row : Row) (k : Row -> M A)
    (app : App) :
  nth_error (table_rows (file_table app)) key = Some row ->
  (row_data <- get_row (RowKey key) ;; k row_data) app = k row app.
Proof.
  intros H. unfold bind at 1. rewrite (get_row_some key row app H).
  cbn. apply outcome_eta.
Qed.

(** A row number is no key: the handler of [Enter] ends with the
    exception of [get_row], before it has looked at any row. *)
Lemma action_open_selected_raises (lower : string -> string) (fs : FS)
    (index : nat) (table_dir : Path) (app : App) :
  table_current_directory (file_table app) = Some table_dir ->
  action_open_selected lower fs (Some index) app =
    {| result := Raise Exception; final := app; notices := [] |}.
Proof.
  intros Ht. unfold action_open_selected. rewrite bind_get, Ht.
  reflexivity.
Qed.




(** ** More on the listing *)

Lemma read_entry_spec (fs : FS) (item : Path) (name : string)
    (directories files : list Row) :
  read_entry fs item name directories files =
    match entry_size fs item with
    | inl e => Raise e
    | inr size =>
        if shown_as_dir fs item
        then Ok ((directories ++ [dir_row name size])%list, files)
        else Ok (directories, (files ++ [file_row name size])%list)
    end.
Proof.
  unfold read_entry, entry_size, shown_as_dir.
  destruct (fs_stat_size fs item) as [e|st_size]; [reflexivity|].
  destruct (fs_is_dir fs item) as [e|[|]]; [reflexivity|..].
  - destruct (fs_iterdir fs item); reflexivity.
  - destruct (_format_size st_size); reflexivity.
Qed.

Lemma locked_entry_spec (fs : FS) (item : Path) (name : string)
    (directories files : list Row) :
  locked_entry fs item name directories files =
    match fs_is_dir fs item with
    | inl e => Raise e
    | inr _ =>
        if shown_as_dir fs item
        then Ok ((directories ++ [dir_row name "locked"])%list, files)
        else Ok (directories, (files ++ [file_row name "locked"])%list)
    end.
Proof.
  unfold locked_entry, shown_as_dir.
  destruct (fs_is_dir fs item) as [e|[|]]; reflexivity.
Qed.

(** The scan is left by an exception of a child that is no
    [OSError], or by what [is_dir] raises in the handler of one that
    is. *)
Lemma scan_raises (fs : FS) (directory : Path) (items : list string) :
  forall directories files e,
    scan fs directory items directories files = Raise e ->
    exists name,
      In name items /\ skipped name = false
      /\ ((entry_size fs (directory / name)%path = Raise e
           /\ is_OSError e = false)
          \/ (exists e0,
                entry_size fs (directory / name)%path = Raise e0
                /\ is_OSError e0 = true
                /\ fs_is_dir fs (directory / name)%path = Raise e)).
Proof.
  induction items as [|name rest IH]; intros directories files e; cbn [scan].
  - discriminate.
  - destruct (skipped name) eqn:Hs.
    + intros H. destruct (IH _ _ _ H) as (n & Hin & Hrest).
      exists n. split; [right; assumption|assumption].
    + rewrite read_entry_spec.
      destruct (entry_size fs (directory / name)%path) as [e'|size] eqn:Hsize.
      * destruct (is_OSError e') eqn:Hos.
        -- rewrite locked_entry_spec.
           destruct (fs_is_dir fs (directory / name)%path) as [e1|b] eqn:Hdir.
           ++ intros [= <-]. exists name.
              split; [left; reflexivity|]. split; [assumption|].
              right. exists e'. repeat split; assumption.
           ++ destruct (shown_as_dir fs (directory / name)%path);
                intros H; destruct (IH _ _ _ H) as (n & Hin & Hrest);
                exists n; (split; [right; assumption|assumption]).
        -- intros [= <-]. exists name.
           split; [left; reflexivity|]. split; [assumption|].
           left. split; assumption.
      * destruct (shown_as_dir fs (directory / name)%path);
          intros H; destruct (IH _ _ _ H) as (n & Hin & Hrest);
          exists n; (split; [right; assumption|assumption]).
Qed.

Lemma scan_spec (fs : FS) (directory : Path) (items : list string) :
  forall directories files directories' files',
    scan fs directory items directories files = Ok (directories', files') ->
    directories'
    = (directories
       ++ map (entry_row fs directory)
            (directory_names fs directory items))%list
    /\ files'
       = (files
          ++ map (entry_row fs directory) (file_names fs directory items))%list.
Proof.
  induction items as [|name rest IH];
    intros directories files directories' files'.
  - cbn. intros [= <- <-]. rewrite !app_nil_r. split; reflexivity.
  - unfold directory_names, file_names. cbn [scan filter].
    destruct (skipped name) eqn:Hs; cbn [negb andb]; [apply IH|].
    rewrite read_entry_spec.
    fold (directory_names fs directory rest).
    fold (file_names fs directory rest).
    assert (Hrow : forall size,
               entry_size fs (directory / name)%path = Ok size ->
               entry_row fs directory name
               = if shown_as_dir fs (directory / name)%path
                 then dir_row name size else file_row name size).
    { intros size Hsize. unfold entry_row. rewrite Hsize. reflexivity. }
    assert (Hlocked : forall e,
               entry_size fs (directory / name)%path = Raise e ->
               entry_row fs directory name
               = if shown_as_dir fs (directory / name)%path
                 then dir_row name "locked" else file_row name "locked").
    { intros e Hsize. unfold entry_row. rewrite Hsize. reflexivity. }
    destruct (entry_size fs (directory / name)%path) as [e|size].
    + specialize (Hlocked e eq_refl).
      destruct (is_OSError e); [|discriminate].
      rewrite locked_entry_spec.
      destruct (fs_is_dir fs (directory / name)%path) as [e1|b];
        [discriminate|].
      destruct (shown_as_dir fs (directory / name)%path); cbn [negb map];
        intros H; destruct (IH _ _ _ _ H) as [Hd Hf]; subst;
        rewrite Hlocked, <- ?app_assoc; split; reflexivity.
    + specialize (Hrow size eq_refl).
      destruct (shown_as_dir fs (directory / name)%path); cbn [negb map];
        intros H; destruct (IH _ _ _ _ H) as [Hd Hf]; subst;
        rewrite Hrow, <- ?app_assoc; split; reflexivity.
Qed.

Lemma parent_fixed (directory : Path) :
  path_eqb (parent directory) directory = true <-> directory = [].
Proof.
  rewrite path_eqb_eq. unfold parent. split.
  - intros H. destruct directory as [|c rest]; [reflexivity|].
    exfalso. pose proof (removelast_length_S (c :: rest) EmptyString) as Hl.
    rewrite H in Hl. specialize (Hl ltac:(discriminate)). cbn in Hl. lia.
  - intros ->. reflexivity.
Qed.

Lemma nav_rows_spec (history : list Path) (directory : Path) :
  (match history with [] => [] | _ :: _ => [back_row] end
   ++ (if path_eqb (parent directory) directory then [] else [up_row]))%list
  = nav_rows history directory.
Proof.
  unfold nav_rows. f_equal.
  destruct (path_eqb (parent directory) directory) eqn:E.
  - apply parent_fixed in E. subst. reflexivity.
  - destruct directory; [|reflexivity].
    exfalso. apply path_eqb_neq in E. apply E. reflexivity.
Qed.

Lemma format_size_returns (n : Z) :
  0 <= n < 2 ^ 63 -> exists text, _format_size n = Ok text.
Proof.
  intros Hn. destruct (float_of_int_no_overflow n Hn) as [f Hf].
  eexists. apply (format_size_unrolled n f); [lia|assumption].
Qed.

Lemma entry_readable_size (fs : FS) (item : Path) (e : exn) :
  entry_readable fs item ->
  entry_size fs item = Raise e ->
  is_OSError e = true.
Proof.
  unfold entry_readable, entry_size. intros [[b ->] H].
  destruct (fs_stat_size fs item) as [e'|st_size].
  - intros [= <-]. assumption.
  - destruct b.
    + destruct (fs_iterdir fs item); discriminate.
    + destruct (format_size_returns st_size H) as [text ->]. discriminate.
Qed.

Lemma skipped_false_iff (name : string) :
  skipped name = false <->
  String.prefix "." name = false \/ name = ".logseq".
Proof.
  unfold skipped, startswith. split.
  - intros H. apply andb_false_iff in H as [H|H]; [left; assumption|].
    right. apply negb_false_iff in H. apply String.eqb_eq. assumption.
  - intros [H| ->]; [rewrite H; reflexivity|reflexivity].
Qed.

Lemma entry_row_name (fs : FS) (directory : Path) (name : string) :
  row_name (entry_row fs directory name)
  = (if shown_as_dir fs (directory / name)%path
     then folder_mark else file_mark)
    ++ name.
Proof.
  unfold entry_row.
  destruct (shown_as_dir fs (directory / name)%path); reflexivity.
Qed.

Lemma entry_row_injective (fs : FS) (directory : Path) (n n' : string) :
  entry_row fs directory n = entry_row fs directory n' -> n = n'.
Proof.
  intros H. apply (f_equal row_name) in H. rewrite !entry_row_name in H.
  destruct (shown_as_dir fs (directory / n)%path),
           (shown_as_dir fs (directory / n')%path);
    vm_compute in H; congruence.
Qed.

Lemma entry_row_kind (fs : FS) (directory : Path) (name : string) :
  is_entry (entry_row fs directory name).
Proof.
  unfold entry_row, is_entry, is_directory, is_file.
  destruct (shown_as_dir fs (directory / name)%path); [left|right];
    reflexivity.
Qed.

Lemma shown_names_length (fs : FS) (directory : Path)
    (items : list string) :
  (List.length (directory_names fs directory items)
   + List.length (file_names fs directory items))%nat
  = List.length (filter (fun name => negb (skipped name)) items).
Proof.
  unfold directory_names, file_names.
  induction items as [|name rest IH]; [reflexivity|].
  cbn [filter].
  destruct (skipped name), (shown_as_dir fs (directory / name)%path);
    cbn [negb andb List.length]; lia.
Qed.

Section ListingContents.

Variable lower : string -> string.

Lemma load_directory_listing (fs : FS) (directory : Path)
    (add_to_history : bool) (t : FileTable) (items : list string) :
  fs_exists fs directory = Ok true ->
  fs_is_dir fs directory = Ok true ->
  fs_iterdir fs directory = Ok items ->
  (forall name, In name items -> skipped name = false ->
                entry_readable fs (directory / name)%path) ->
  let loaded := load_directory lower fs directory add_to_history t in
  snd loaded = None
  /\ table_rows (fst loaded)
     = (nav_rows (directory_history (fst loaded)) directory
        ++ sort_rows lower
             (map (entry_row fs directory)
                  (directory_names fs directory items))
        ++ sort_rows lower
             (map (entry_row fs directory)
                  (file_names fs directory items)))%list.
Proof.
  intros He Hd Hi Hread. cbv zeta. unfold load_directory, missing_or_not_dir.
  rewrite He, Hd. cbn [negb].
  match goal with
  | |- context [list_entries lower fs directory ?h] => set (history := h)
  end.
  unfold list_entries. rewrite Hi.
  destruct (scan fs directory items [] []) as [e|[directories files]] eqn:Hscan.
  - exfalso.
    destruct (scan_raises fs directory items [] [] e Hscan)
      as (name & Hin & Hs & [[Hsize Hos]|(e0 & _ & _ & Hdir)]).
    + rewrite (entry_readable_size fs _ e (Hread name Hin Hs) Hsize) in Hos.
      discriminate.
    + destruct (Hread name Hin Hs) as [[b Hb] _]. congruence.
  - destruct (scan_spec fs directory items [] [] directories files Hscan)
      as [-> ->].
    cbn [fst snd table_rows directory_history app].
    split; [reflexivity|].
    rewrite <- nav_rows_spec, <- app_assoc. reflexivity.
Qed.

(** X1.  A directory that can be listed, of whose children [is_dir]
    answers and whose children can each be read or fail with an
    [OSError], is listed without an exception, and the table holds
    the navigation rows, then one row for every directory among the
    children that are not hidden, sorted, then one row for every file
    among them, sorted: an unreadable child is a row marked locked,
    not an error.  The table so has as many entry rows as the
    directory has children that are not hidden. *)
Theorem load_directory_rows (fs : FS) (directory : Path)
    (add_to_history : bool) (t : FileTable) (items : list string) :
  fs_exists fs directory = Ok true ->
  fs_is_dir fs directory = Ok true ->
  fs_iterdir fs directory = Ok items ->
  (forall name, In name items -> skipped name = false ->
                entry_readable fs (directory / name)%path) ->
  let loaded := load_directory lower fs directory add_to_history t in
  snd loaded = None
  /\ table_rows (fst loaded)
     = (nav_rows (directory_history (fst loaded)) directory
        ++ sort_rows lower
             (map (entry_row fs directory)
                  (directory_names fs directory items))
        ++ sort_rows lower
             (map (entry_row fs directory)
                  (file_names fs directory items)))%list
  /\ List.length (table_rows (fst loaded))
     = (List.length (nav_rows (directory_history (fst loaded)) directory)
        + List.length (filter (fun name => negb (skipped name)) items))%nat.
Proof.
  intros He Hd Hi Hread. cbv zeta.
  destruct (load_directory_listing fs directory add_to_history t items
              He Hd Hi Hread) as [Hnone Hrows].
  split; [assumption|]. split; [assumption|].
  rewrite Hrows, !length_app.
  rewrite !(Permutation_length (sort_rows_Permutation lower _)).
  rewrite !length_map, shown_names_length. reflexivity.
Qed.

(** X2.  In such a listing a child has its row exactly when its name
    does not start with a dot or is [.logseq]; no other entry rows
    are shown. *)
Theorem load_directory_shows (fs : FS) (directory : Path)
    (add_to_history : bool) (t : FileTable) (items : list string) :
  fs_exists fs directory = Ok true ->
  fs_is_dir fs directory = Ok true ->
  fs_iterdir fs directory = Ok items ->
  (forall name, In name items -> skipped name = false ->
                entry_readable fs (directory / name)%path) ->
  let rows :=
    table_rows (fst (load_directory lower fs directory add_to_history t)) in
  (forall name,
      In name items ->
      (In (entry_row fs directory name) rows <->
       String.prefix "." name = false \/ name = ".logseq"))
  /\ (forall row, In row rows -> is_entry row ->
        exists name, In name items /\ row = entry_row fs directory name).
Proof.
  intros He Hd Hi Hread. cbv zeta.
  destruct (load_directory_listing fs directory add_to_history t items
              He Hd Hi Hread) as [_ ->].
  set (h := directory_history
              (fst (load_directory lower fs directory add_to_history t))).
  assert (Hnav : forall r, In r (nav_rows h directory) -> is_nav r).
  { unfold nav_rows. intros r Hr. apply in_app_or in Hr.
    destruct h, directory; cbn in Hr;
      repeat (destruct Hr as [Hr|Hr]; subst; try reflexivity);
      contradiction. }
  assert (Hsorted : forall r names,
             In r (sort_rows lower (map (entry_row fs directory) names)) <->
             exists n, In n names /\ r = entry_row fs directory n).
  { intros r names. split.
    - intros Hr.
      apply (Permutation_in _ (sort_rows_Permutation lower _)) in Hr.
      apply in_map_iff in Hr as (n & <- & Hn). exists n. split; auto.
    - intros (n & Hn & ->).
      apply (Permutation_in _
               (Permutation_sym (sort_rows_Permutation lower _))).
      apply in_map. assumption. }
  assert (Hnames : forall n,
             In n (directory_names fs directory items)
             \/ In n (file_names fs directory items)
             <-> In n items /\ skipped n = false).
  { intros n. unfold directory_names, file_names. rewrite !filter_In.
    destruct (skipped n), (shown_as_dir fs (directory / n)%path); cbn;
      intuition congruence. }
  split.
  - intros name Hin. rewrite <- skipped_false_iff. split.
    + intros Hrow. apply in_app_or in Hrow as [Hrow|Hrow].
      * exfalso. apply Hnav in Hrow.
        destruct (entry_row_kind fs directory name) as [H|H];
          unfold is_nav, is_directory, is_file in *; congruence.
      * assert (Hn : exists n,
                   (In n (directory_names fs directory items)
                    \/ In n (file_names fs directory items))
                   /\ entry_row fs directory name = entry_row fs directory n).
        { apply in_app_or in Hrow as [Hrow|Hrow];
            apply Hsorted in Hrow as (n & Hn & E); exists n; auto. }
        destruct Hn as (n & Hn & E).
        apply entry_row_injective in E. subst n.
        apply Hnames in Hn. apply Hn.
    + intros Hs. apply in_or_app. right.
      assert (Hn : In name items /\ skipped name = false) by auto.
      apply Hnames in Hn. apply in_or_app.
      destruct Hn as [Hn|Hn]; [left|right]; apply Hsorted; exists name; auto.
  - intros row Hrow Hentry. apply in_app_or in Hrow as [Hrow|Hrow].
    + exfalso. apply Hnav in Hrow.
      destruct Hentry as [H|H];
        unfold is_nav, is_directory, is_file in *; congruence.
    + apply in_app_or in Hrow as [Hrow|Hrow];
        apply Hsorted in Hrow as (n & Hn & ->); exists n;
        (split; [|reflexivity]);
        [assert (H : In n items /\ skipped n = false)
           by (apply Hnames; left; assumption)
        |assert (H : In n items /\ skipped n = false)
           by (apply Hnames; right; assumption)];
        apply H.
Qed.

End ListingContents.

(** ** More on the history and the selection *)

Lemma bind_final_unchanged {A B : Type} (m : M A) (k : A -> M B) (app : App) :
  final (m app) = app ->
  final ((x <- m ;; k x) app) =
    match result (m app) with
    | inl _ => app
    | inr a => final (k a app)
    end.
Proof.
  intros H. rewrite bind_final, H. destruct (result (m app)); reflexivity.
Qed.

Lemma try_except_final {A : Type} (m : M A) (handler : exn -> M A)
    (app : App) :
  (forall e app', final (handler e app') = app') ->
  final (try_except m handler app) = final (m app).
Proof.
  intros H. unfold try_except.
  destruct (result (m app)); [apply H|reflexivity].
Qed.

Lemma check_logseq_structure_final (fs : FS) (target : Path) (app : App) :
  final (check_logseq_structure fs (Some target) app)
  = set_logseq_status
      (fst (status_check fs target (logseq_status app))) app.
Proof. rewrite check_logseq_structure_unfold. reflexivity. Qed.

Section Moves.

Variable lower : string -> string.

Lemma load_directory_again (fs : FS) (directory : Path) (t : FileTable) :
  table_current_directory t = Some directory ->
  load_directory lower fs directory true
    (fst (load_directory lower fs directory true t))
  = load_directory lower fs directory true t.
Proof.
  intros Hc.
  assert (Hh : directory_history
                 (fst (load_directory lower fs directory true t))
               = directory_history t).
  { rewrite load_directory_history, Hc, path_eqb_refl. reflexivity. }
  pose proof (load_directory_current lower fs directory true t) as Hc'.
  revert Hh Hc'.
  generalize (fst (load_directory lower fs directory true t)) as t'.
  intros t' Hh Hc'. unfold load_directory.
  rewrite Hc, Hc', Hh. reflexivity.
Qed.

Lemma action_go_back_final (fs : FS) (app : App) :
  final (action_go_back lower fs app) = app
  \/ (history app <> []
      /\ final (action_go_back lower fs app)
         = final (navigate lower fs (last (history app) []) (popped app))).
Proof.
  destruct (history app) as [|p h] eqn:Hh.
  - left. rewrite (action_go_back_empty lower fs app Hh). reflexivity.
  - right. assert (Hne : history app <> []) by (rewrite Hh; discriminate).
    split; [rewrite <- Hh; assumption|].
    rewrite (action_go_back_pops lower fs app Hne), Hh. reflexivity.
Qed.

Lemma on_file_table_row_selected_handled (fs : FS) (row_key : nat)
    (app : App) :
  handled lower fs app
    (final (on_file_table_row_selected lower fs row_key app)).
Proof.
  unfold on_file_table_row_selected. rewrite bind_get.
  destruct (table_current_directory (file_table app)) as [table_dir|];
    [|apply handled_nothing].
  rewrite bind_final_unchanged by apply get_row_same.
  destruct (result (get_row (RowKey row_key) app)) as [e|row_data];
    [apply handled_nothing|].
  destruct (row_name row_data =? back_name)%string; [apply handled_back|].
  destruct (row_name row_data =? up_name)%string; [apply handled_navigated|].
  destruct (row_type row_data =? "DIR")%string; [|apply handled_nothing].
  rewrite check_logseq_structure_final. apply handled_checked.
Qed.

Lemma action_open_selected_handled (fs : FS) (cursor_row : option nat)
    (app : App) :
  handled lower fs app (final (action_open_selected lower fs cursor_row app)).
Proof.
  unfold action_open_selected. rewrite bind_get.
  destruct cursor_row as [key|]; [|apply handled_nothing].
  destruct (table_current_directory (file_table app)) as [table_dir|];
    [|apply handled_nothing].
  rewrite bind_final_unchanged by apply get_row_same.
  destruct (result (get_row (RowNumber key) app)) as [e|row_data];
    [apply handled_nothing|].
  destruct (row_name row_data =? back_name)%string; [apply handled_back|].
  destruct (row_name row_data =? up_name)%string; [apply handled_navigated|].
  destruct (row_type row_data =? "DIR")%string;
    [apply handled_navigated|apply handled_nothing].
Qed.

Lemma action_select_current_handled (fs : FS) (app : App) :
  handled lower fs app (final (action_select_current app)).
Proof.
  destruct (is_valid (logseq_status app)) eqn:Hv.
  - rewrite (action_select_current_valid app Hv). cbn [final].
    apply handled_selected. assumption.
  - rewrite (action_select_current_invalid app Hv). apply handled_nothing.
Qed.

Lemma action_refresh_final (fs : FS) (app : App) :
  final (action_refresh lower fs app) = final (refresh_all lower fs app).
Proof.
  unfold action_refresh. rewrite bind_final.
  destruct (result (refresh_all lower fs app)); reflexivity.
Qed.

Lemma action_refresh_handled (fs : FS) (app : App) :
  handled lower fs app (final (action_refresh lower fs app)).
Proof.
  rewrite action_refresh_final, refresh_all_navigate. apply handled_navigated.
Qed.

Lemma on_input_submitted_final (fs : FS) (input_id value : string)
    (app : App) :
  final (on_input_submitted lower fs input_id value app) =
    if (input_id =? "path-input")%string then
      match fs_resolve fs value with
      | inr new_path =>
          match exists_and_is_dir fs new_path with
          | inr true => final (navigate lower fs new_path app)
          | _ => app
          end
      | inl _ => app
      end
    else app.
Proof.
  unfold on_input_submitted.
  destruct (input_id =? "path-input")%string; [|reflexivity].
  rewrite try_except_final by reflexivity.
  destruct (fs_resolve fs value) as [e|new_path]; [reflexivity|].
  cbn [lift]. rewrite bind_ret.
  destruct (exists_and_is_dir fs new_path) as [e|[|]]; [reflexivity|..];
    cbn [lift]; rewrite bind_ret; reflexivity.
Qed.

Lemma handle_handled (fs : FS) (ev : Event) (app : App) :
  handled lower fs app (final (handle lower fs ev app)).
Proof.
  destruct ev; cbn [handle].
  - apply on_file_table_row_selected_handled.
  - rewrite on_input_submitted_final.
    destruct (input_id =? "path-input")%string; [|apply handled_nothing].
    destruct (fs_resolve fs value) as [e|new_path]; [apply handled_nothing|].
    destruct (exists_and_is_dir fs new_path) as [e|[|]];
      [apply handled_nothing|apply handled_navigated|apply handled_nothing].
  - unfold on_button_pressed.
    destruct (button_id =? "select-btn")%string;
      [apply action_select_current_handled|].
    destruct (button_id =? "refresh-btn")%string;
      [apply action_refresh_handled|].
    destruct (button_id =? "back-btn")%string;
      [apply handled_back|apply handled_nothing].
  - apply action_refresh_handled.
  - apply handled_nothing.
  - apply action_open_selected_handled.
  - apply handled_back.
  - apply action_select_current_handled.
Qed.

Lemma navigate_move (fs : FS) (p : Path) (app : App) :
  history_inv app -> history_move app (final (navigate lower fs p app)).
Proof.
  intros [Hc Hh]. unfold history_move.
  rewrite navigate_current, (navigate_history lower fs p _ app Hc).
  destruct (path_eqb (current_directory app) p) eqn:E.
  - left. apply path_eqb_eq in E. split; [congruence|reflexivity].
  - right. left. apply path_eqb_neq in E. split; [congruence|reflexivity].
Qed.

Lemma handled_move (fs : FS) (app app' : App) :
  history_inv app -> handled lower fs app app' -> history_move app app'.
Proof.
  intros Hinv H. destruct H as [|target|Hv|p|].
  - left. split; reflexivity.
  - left. split; reflexivity.
  - left. split; reflexivity.
  - apply navigate_move. assumption.
  - destruct (history app) as [|q h] eqn:Hh.
    + rewrite (action_go_back_empty lower fs app Hh). left. split; reflexivity.
    + assert (Hne : history app <> []) by (rewrite Hh; discriminate).
      destruct (action_go_back_swaps lower fs app Hinv Hne)
        as (Hc & Hhist & Hd & _).
      right. right. repeat split; assumption.
Qed.

(** X4.  In a session every event moves the history and the current
    directory together, in one of three ways: both stay as they are;
    or the directory changes and the one left is appended to the
    history; or, on a GoBack, the last entry becomes the directory and
    the one left takes its place.  So the history changes exactly when
    the directory does, and no event removes an entry without adding
    one. *)
Theorem handle_moves_history (cwd : Path) (app : App) (fs : FS) (ev : Event) :
  session lower cwd app ->
  history_move app (final (handle lower fs ev app))
  /\ (history (final (handle lower fs ev app)) = history app <->
      current_directory (final (handle lower fs ev app))
      = current_directory app).
Proof.
  intros Hs. pose proof (session_inv lower cwd app Hs) as Hinv.
  pose proof (handled_move fs app _ Hinv (handle_handled fs ev app)) as Hm.
  split; [assumption|].
  destruct Hm as [[Hc Hh]|[[Hc Hh]|(Hne & Hc & Hd & Hh)]].
  - split; intros _; assumption.
  - split; [|contradiction]. rewrite Hh. intros E. exfalso.
    apply (f_equal (@List.length Path)) in E. rewrite length_app in E.
    cbn in E. lia.
  - split; [|contradiction]. rewrite Hh. intros E. exfalso.
    destruct Hinv as [_ [Hinv|Hinv]]; [contradiction|].
    assert (E' : (removelast (history app) ++ [current_directory app])%list
                 = (removelast (history app) ++ [last (history app) []])%list)
      by (rewrite E; apply app_removelast_last; assumption).
    apply app_inj_tail in E' as [_ E']. congruence.
Qed.

(** X5.  No event clears the selection: an event leaves
    [selected_directory] as it is, or sets it to the current directory
    while the stored verdict is valid.  Once a directory is selected,
    some directory stays selected. *)
Theorem handle_moves_selection (fs : FS) (ev : Event) (app : App) :
  selection_move app (final (handle lower fs ev app))
  /\ (selected_directory app <> None ->
      selected_directory (final (handle lower fs ev app)) <> None).
Proof.
  assert (Hm : selection_move app (final (handle lower fs ev app))).
  { destruct (handle_handled fs ev app) as [|target|Hv|p|].
    - left. reflexivity.
    - left. reflexivity.
    - right. split; [assumption|reflexivity].
    - left. rewrite navigate_unfold, refresh_all_selected. reflexivity.
    - left. destruct (action_go_back_final fs app) as [->|[_ ->]];
        [reflexivity|].
      rewrite navigate_unfold, refresh_all_selected. reflexivity. }
  split; [assumption|].
  destruct Hm as [->|[_ ->]]; [auto|discriminate].
Qed.

End Moves.

(** ** More on the table, Refresh and paths typed in *)

Section Places.

Variable lower : string -> string.

Lemma load_directory_history_any (fs : FS) (directory : Path) (b : bool)
    (t : FileTable) :
  directory_history (fst (load_directory lower fs directory b t)) =
    match table_current_directory t with
    | Some current =>
        if b && negb (path_eqb current directory)
        then (directory_history t ++ [current])%list
        else directory_history t
    | None => directory_history t
    end.
Proof.
  unfold load_directory.
  destruct (missing_or_not_dir fs directory) as [e|[|]];
    [reflexivity..|].
  match goal with
  | |- context [list_entries lower fs directory ?h] =>
      destruct (list_entries lower fs directory h) as [[]|]
  end; reflexivity.
Qed.

(** X3.  Whatever becomes of the listing, [load_directory] shows the
    directory asked for and touches the history in one way only: when
    [add_to_history] is set and another directory was shown, that
    directory is appended, and [go_back] then gives it back and leaves
    the history as it was before.  Without [add_to_history], or for
    the directory already shown, the history is left alone. *)
Theorem load_directory_push_pop (fs : FS) (directory current : Path)
    (add_to_history : bool) (t : FileTable) :
  table_current_directory t = Some current ->
  let t' := fst (load_directory lower fs directory add_to_history t) in
  table_current_directory t' = Some directory
  /\ (add_to_history = true -> current <> directory ->
      directory_history t' = (directory_history t ++ [current])%list
      /\ fst (go_back t') = Some current
      /\ directory_history (snd (go_back t')) = directory_history t
      /\ table_current_directory (snd (go_back t')) = Some directory)
  /\ (add_to_history = false \/ current = directory ->
      directory_history t' = directory_history t).
Proof.
  intros Hc. cbv zeta.
  pose proof (load_directory_current lower fs directory add_to_history t) as Hd.
  pose proof (load_directory_history_any fs directory add_to_history t) as Hh.
  rewrite Hc in Hh.
  split; [assumption|]. split.
  - intros -> Hne. apply path_eqb_neq in Hne. rewrite Hne in Hh. cbn in Hh.
    split; [assumption|]. unfold go_back. rewrite Hh.
    destruct (directory_history t ++ [current])%list eqn:E.
    + apply app_eq_nil in E as [_ E]. discriminate.
    + rewrite <- E. cbn [fst snd directory_history table_current_directory].
      rewrite last_last, removelast_last. repeat split. assumption.
  - intros [-> | ->]; [assumption|].
    rewrite path_eqb_refl, andb_false_r in Hh. assumption.
Qed.

(** X6.  In a session Refresh leaves the current directory, the
    history and the selection as they are; when it returns, the status
    panel holds the validator's verdict for the current directory on
    the file system of that moment; and a second Refresh on the same
    file system changes nothing more. *)
Theorem refresh_keeps_place (cwd : Path) (app : App) (fs : FS) :
  session lower cwd app ->
  let o := action_refresh lower fs app in
  current_directory (final o) = current_directory app
  /\ history (final o) = history app
  /\ selected_directory (final o) = selected_directory app
  /\ (returns o ->
      (exists checked,
         validate_logseq_structure fs (current_directory app) = Ok checked
         /\ logseq_status (final o)
            = status_shown (current_directory app) checked)
      /\ notices o = [Refreshed])
  /\ final (action_refresh lower fs (final o)) = final o.
Proof.
  intros Hs. pose proof (session_inv lower cwd app Hs) as [Hc Hh].
  cbv zeta. rewrite !action_refresh_final.
  split; [apply refresh_all_current|]. split.
  { unfold history. rewrite refresh_all_table, load_directory_history, Hc.
    rewrite path_eqb_refl. reflexivity. }
  split; [apply refresh_all_selected|]. split.
  { intros [a Hret]. unfold action_refresh, bind in Hret |- *.
    destruct (result (refresh_all lower fs app)) as [e|[]] eqn:Hr;
      [discriminate|].
    cbn [final notices]. split.
    - apply refresh_all_status. exists tt. assumption.
    - rewrite refresh_all_notices. reflexivity. }
  rewrite (refresh_all_unfold lower fs (final (refresh_all lower fs app))).
  rewrite refresh_all_current, refresh_all_table.
  rewrite (load_directory_again lower fs _ _ Hc).
  rewrite (refresh_all_unfold lower fs app). cbv zeta.
  destruct (snd (load_directory lower fs (current_directory app) true
                   (file_table app))); [destruct app; reflexivity|].
  cbn [final logseq_status set_logseq_status]. unfold status_check.
  destruct (validate_logseq_structure fs (current_directory app));
    destruct app; reflexivity.
Qed.

(** X7.  [on_input_submitted] never lets an exception out.  A text
    that cannot be resolved, and one that resolves to a path that
    cannot be examined, leave the state as it is and are answered by
    the notice of the error; a text that resolves to something found
    not to exist or to be no directory leaves the state as it is and
    is answered by the notice of an invalid path; an event of another
    input does nothing. *)
Theorem on_input_submitted_returns (fs : FS) (input_id value : string)
    (app : App) :
  let o := on_input_submitted lower fs input_id value app in
  result o = Ok tt
  /\ (input_id = "path-input" ->
      forall e, fs_resolve fs value = Raise e ->
        final o = app /\ notices o = [Error_notice e])
  /\ (input_id = "path-input" ->
      forall p e, fs_resolve fs value = Ok p ->
        fs_exists fs p = Raise e
        \/ (fs_exists fs p = Ok true /\ fs_is_dir fs p = Raise e) ->
        final o = app /\ notices o = [Error_notice e])
  /\ (input_id = "path-input" ->
      forall p, fs_resolve fs value = Ok p ->
        fs_exists fs p = Ok false
        \/ (fs_exists fs p = Ok true /\ fs_is_dir fs p = Ok false) ->
        final o = app /\ notices o = [Invalid_path])
  /\ (input_id <> "path-input" -> final o = app /\ notices o = []).
Proof.
  cbv zeta. unfold on_input_submitted. split; [|split; [|split; [|split]]].
  - destruct (input_id =? "path-input")%string; [|reflexivity].
    unfold try_except.
    match goal with
    | |- context [result (?m app)] => destruct (result (m app)) as [e|[]] eqn:E
    end; [reflexivity|assumption].
  - intros -> e He. rewrite String.eqb_refl.
    unfold try_except. rewrite He. cbn. split; reflexivity.
  - intros -> p e Hp Hd. rewrite String.eqb_refl.
    assert (Hboth : exists_and_is_dir fs p = Raise e).
    { unfold exists_and_is_dir. destruct Hd as [->|[-> ->]]; reflexivity. }
    unfold try_except. rewrite Hp. cbn [lift]. rewrite bind_ret, Hboth.
    cbn. split; reflexivity.
  - intros -> p Hp Hd. rewrite String.eqb_refl.
    apply exists_and_is_dir_false in Hd.
    unfold try_except. rewrite Hp. cbn [lift]. rewrite bind_ret, Hd.
    cbn. split; reflexivity.
  - intros Hne. apply String.eqb_neq in Hne. rewrite Hne.
    split; reflexivity.
Qed.

Lemma on_input_submitted_navigate (fs : FS) (value : string) (p : Path)
    (app : App) :
  fs_resolve fs value = Ok p ->
  fs_exists fs p = Ok true ->
  fs_is_dir fs p = Ok true ->
  on_input_submitted lower fs "path-input" value app
  = try_except (navigate lower fs p) (fun e => notify (Error_notice e)) app.
Proof.
  intros Hp He Hd. unfold on_input_submitted.
  cbn [String.eqb Ascii.eqb Bool.eqb].
  assert (Hboth : exists_and_is_dir fs p = Ok true)
    by (apply exists_and_is_dir_true; split; assumption).
  unfold try_except. rewrite Hp. cbn [lift]. rewrite bind_ret, Hboth.
  cbn [lift]. rewrite bind_ret. reflexivity.
Qed.

(** X8.  In a session, a submitted text that resolves to a directory
    makes it the current directory and, when it differs from the one
    left, appends that one to the history; the selection is kept, and
    when the reload returns the status panel holds the verdict for the
    new directory and no notice is sent. *)
Theorem on_input_submitted_navigates (cwd : Path) (app : App) (fs : FS)
    (value : string) (p : Path) :
  session lower cwd app ->
  fs_resolve fs value = Ok p ->
  fs_exists fs p = Ok true ->
  fs_is_dir fs p = Ok true ->
  let o := on_input_submitted lower fs "path-input" value app in
  current_directory (final o) = p
  /\ table_current_directory (file_table (final o)) = Some p
  /\ history (final o)
     = (if path_eqb (current_directory app) p then history app
        else (history app ++ [current_directory app])%list)
  /\ selected_directory (final o) = selected_directory app
  /\ (returns (navigate lower fs p app) ->
      (exists checked,
         validate_logseq_structure fs p = Ok checked
         /\ logseq_status (final o) = status_shown p checked)
      /\ notices o = []).
Proof.
  intros Hs Hp He Hd. pose proof (session_inv lower cwd app Hs) as [Hc _].
  cbv zeta. rewrite (on_input_submitted_navigate fs value p app Hp He Hd).
  rewrite try_except_final by reflexivity.
  split; [apply navigate_current|].
  split; [apply navigate_table_current|].
  split; [apply (navigate_history lower fs p _ app Hc)|].
  split; [rewrite navigate_unfold, refresh_all_selected; reflexivity|].
  intros [a Hret]. unfold try_except. rewrite Hret. split.
  - rewrite navigate_unfold in *.
    apply (refresh_all_status lower fs (set_current_directory p app)).
    exists a. assumption.
  - rewrite navigate_unfold. apply refresh_all_notices.
Qed.

(** X9.  When the reload for a submitted directory raises (its
    listing fails with an error other than a refused permission), the
    error is caught and reported, but the directory has already been
    switched and the status panel is left with the verdict it had:
    Select then goes by the old verdict for the new directory. *)
Theorem on_input_submitted_reload_fails (fs : FS) (value : string)
    (p : Path) (e : exn) (app : App) :
  fs_resolve fs value = Ok p ->
  fs_exists fs p = Ok true ->
  fs_is_dir fs p = Ok true ->
  fs_iterdir fs p = Raise e ->
  e <> PermissionError ->
  let o := on_input_submitted lower fs "path-input" value app in
  result o = Ok tt
  /\ notices o = [Error_notice e]
  /\ current_directory (final o) = p
  /\ logseq_status (final o) = logseq_status app
  /\ (is_valid (logseq_status app) = true ->
      selected_directory (final (action_select_current (final o))) = Some p).
Proof.
  intros Hp He Hd Hi Hne. cbv zeta.
  rewrite (on_input_submitted_navigate fs value p app Hp He Hd).
  assert (Hload : snd (load_directory lower fs p true (file_table app))
                  = Some e).
  { unfold load_directory, list_entries, missing_or_not_dir.
    rewrite He, Hd, Hi. cbn [negb].
    destruct e; try reflexivity. contradiction. }
  assert (Hnav : navigate lower fs p app
                 = {| result := Raise e;
                      final := final (navigate lower fs p app);
                      notices := [] |}).
  { rewrite navigate_unfold, refresh_all_unfold. cbv zeta.
    cbn [current_directory set_current_directory file_table] in *.
    rewrite Hload. reflexivity. }
  assert (Hstatus : logseq_status (final (navigate lower fs p app))
                    = logseq_status app).
  { rewrite navigate_unfold, refresh_all_unfold. cbv zeta.
    cbn [current_directory set_current_directory file_table] in *.
    rewrite Hload. reflexivity. }
  unfold try_except. rewrite Hnav. cbn [result final notices notify List.app].
  split; [reflexivity|]. split; [reflexivity|].
  split; [apply navigate_current|]. split; [assumption|].
  intros Hv.
  rewrite action_select_current_valid by (rewrite Hstatus; assumption).
  cbn [final selected_directory set_selected_directory].
  rewrite navigate_current. reflexivity.
Qed.

(** X10.  Right after the application is mounted the history is
    empty, and GoBack then changes nothing and says that this is the
    starting point. *)
Theorem go_back_at_start (fs fs' : FS) (cwd : Path) :
  history (final (on_mount lower fs (init cwd))) = []
  /\ action_go_back lower fs' (final (on_mount lower fs (init cwd)))
     = {| result := Ok tt;
          final := final (on_mount lower fs (init cwd));
          notices := [Already_at_start] |}.
Proof.
  destruct (mount_inv lower fs cwd) as [_ Hh].
  split; [assumption|]. apply action_go_back_empty. assumption.
Qed.

End Places.

(** ** More on the validator *)

Lemma count_content_lines (fs : FS) (directory : Path)
    (summary : list string) :
  exists counts,
    count_content fs directory summary = (summary ++ counts)%list
    /\ Forall
         (fun line => exists n, line = pages_line n \/ line = journals_line n)
         counts.
Proof.
  unfold count_content.
  destruct (fs_exists fs (directory / "pages")%path) as [e|[|]];
    [|destruct (glob_md fs (directory / "pages")%path) as [e|found]|];
    try (exists []; rewrite app_nil_r; split; [reflexivity|constructor]);
    (destruct (fs_exists fs (directory / "journals")%path) as [e'|[|]];
     [|destruct (glob_md fs (directory / "journals")%path) as [e'|found']|]);
    rewrite <- ?app_assoc;
    try (exists []; rewrite app_nil_r; split; [reflexivity|constructor]);
    eexists; (split; [reflexivity|]);
    repeat (constructor; [eexists; (left; reflexivity) || (right; reflexivity)|]);
    constructor.
Qed.

Lemma present_exists (fs : FS) (directory : Path) (item : string)
    (found : bool) :
  present fs directory item = Ok found ->
  exists there, fs_exists fs (directory / item)%path = Ok there.
Proof.
  unfold present, exists_and_is_dir.
  destruct (fs_exists fs (directory / item)%path) as [e|there];
    [discriminate|].
  intros _. exists there. reflexivity.
Qed.

(** X11.  For a directory whose checks of presence return and whose
    counts succeed, the validator returns, and the summary is the
    three presence lines in the order logseq, pages, journals,
    followed by a count line for [pages] and one for [journals], each
    present exactly when that name exists under the directory, be it
    a folder or not, and whatever the verdict. *)
Theorem validate_summary (fs : FS) (directory : Path)
    (found1 found2 found3 : bool) (pages journals : list string) :
  fs_exists fs directory = Ok true ->
  fs_is_dir fs directory = Ok true ->
  present fs directory "logseq" = Ok found1 ->
  present fs directory "pages" = Ok found2 ->
  present fs directory "journals" = Ok found3 ->
  (fs_exists fs (directory / "pages")%path = Ok true ->
   glob_md fs (directory / "pages")%path = Ok pages) ->
  (fs_exists fs (directory / "journals")%path = Ok true ->
   glob_md fs (directory / "journals")%path = Ok journals) ->
  validate_logseq_structure fs directory
  = Ok (found1 && found2 && found3,
        ([presence_line found1 "logseq";
          presence_line found2 "pages";
          presence_line found3 "journals"]
         ++ count_lines fs directory pages journals)%list).
Proof.
  intros He Hd H1 H2 H3 Hp Hj.
  rewrite (validate_directory fs directory He Hd), presence_spec.
  rewrite H1, H2, H3. f_equal. f_equal.
  destruct (present_exists fs directory "pages" found2 H2) as [b2 E2].
  destruct (present_exists fs directory "journals" found3 H3) as [b3 E3].
  unfold count_content, count_lines. rewrite E2, E3.
  destruct b2; [rewrite (Hp E2)|];
    (destruct b3; [rewrite (Hj E3)|]);
    rewrite <- ?app_assoc, ?app_nil_r; reflexivity.
Qed.

(** X12.  For a directory the verdict that the validator returns is
    invalid exactly when the summary it returns holds the absent line
    of one of the three names. *)
Theorem validate_invalid_iff_absent_line (fs : FS) (directory : Path)
    (valid : bool) (summary : list string) :
  fs_exists fs directory = Ok true ->
  fs_is_dir fs directory = Ok true ->
  validate_logseq_structure fs directory = Ok (valid, summary) ->
  (valid = false <->
   exists item,
     In item required_items /\ In (absent_line item) summary).
Proof.
  intros He Hd Hv. rewrite (validate_directory fs directory He Hd) in Hv.
  destruct (presence fs directory) as [e|[lines v]] eqn:Hp; [discriminate|].
  injection Hv as <- <-.
  destruct (presence_lines fs directory lines v Hp)
    as (b1 & b2 & b3 & _ & _ & _ & -> & ->).
  destruct (count_content_lines fs directory
              [presence_line b1 "logseq"; presence_line b2 "pages";
               presence_line b3 "journals"])
    as (counts & -> & Hcounts).
  split.
  - intros Hv.
    destruct b1;
      [destruct b2; [destruct b3; [discriminate|exists "journals"]
                    |exists "pages"]
      |exists "logseq"];
      (split; [cbn; auto 10|apply in_or_app; left; cbn; auto 10]).
  - intros (item & Hin & Hline).
    apply in_app_or in Hline as [Hline|Hline].
    + destruct b1, b2, b3; try reflexivity. exfalso.
      destruct Hline as [H|[H|[H|[]]]]; vm_compute in H; congruence.
    + exfalso. rewrite Forall_forall in Hcounts.
      destruct (Hcounts _ Hline) as (n & [Heq|Heq]);
        unfold absent_line, pages_line, journals_line in Heq;
        cbn [String.append] in Heq; congruence.
Qed.

(** ** More on the names of folders *)

Lemma remove_all_length (old : string) (s : string) :
  forall skip,
    (String.length (remove_all old skip s) <= String.length s)%nat.
Proof.
  induction s as [|c rest IH]; intros skip; cbn [remove_all String.length].
  - apply Nat.le_refl.
  - destruct skip as [|k].
    + destruct (String.prefix old (String c rest)).
      * specialize (IH (String.length old - 1)%nat). lia.
      * cbn [String.length]. specialize (IH 0%nat). lia.
    + specialize (IH k). lia.
Qed.

Lemma remove_all_fixed (old s : string) :
  remove_all old 0 s = s -> free_of old s.
Proof.
  induction s as [|c rest IH]; intros H; cbn [free_of].
  - exact I.
  - cbn [remove_all] in H.
    destruct (String.prefix old (String c rest)) eqn:Hp.
    + exfalso.
      pose proof (remove_all_length old rest (String.length old - 1)) as Hl.
      rewrite H in Hl. cbn [String.length] in Hl. lia.
    + split; [reflexivity|]. apply IH. congruence.
Qed.

(** X13.  The name that the handlers take from the row of a folder
    is the name of the folder exactly when the mark of the folder rows
    does not occur in that name; for a name that holds the mark, the
    handlers go by a shorter name. *)
Theorem folder_name_round_trip (name size : string) :
  (folder_name_of (row_name (dir_row name size)) = name <->
   free_of folder_mark name)
  /\ (String.length (folder_name_of (row_name (dir_row name size)))
      <= String.length name)%nat.
Proof.
  assert (Hstrip : folder_name_of (row_name (dir_row name size))
                   = remove_all folder_mark 0 name).
  { unfold folder_name_of, replace_by_empty, dir_row.
    cbn [row_name]. unfold folder_mark at 2. cbn [String.append].
    cbn [remove_all]. unfold folder_mark at 1.
    cbn [String.prefix]. repeat (destruct (ascii_dec _ _); [|congruence]).
    rewrite prefix_empty. reflexivity. }
  rewrite Hstrip. split; [split|].
  - apply remove_all_fixed.
  - apply remove_all_free.
  - apply remove_all_length.
Qed.

(** ** More on the size formatter *)

Lemma round_half_even_near (num den : Z) :
  0 < den -> 2 * Z.abs (round_half_even num den * den - num) <= den.
Proof.
  intros Hden. unfold round_half_even.
  pose proof (Z.div_mod num den ltac:(lia)) as Hdm.
  pose proof (Z.mod_pos_bound num den Hden) as Hr.
  set (q := num / den) in *. set (r := num mod den) in *.
  destruct (Z.ltb_spec (2 * r) den).
  - replace (q * den - num) with (- r) by lia. lia.
  - destruct (Z.ltb_spec den (2 * r)).
    + replace ((q + 1) * den - num) with (den - r) by lia. lia.
    + destruct (Z.even q).
      * replace (q * den - num) with (- r) by lia. lia.
      * replace ((q + 1) * den - num) with (den - r) by lia. lia.
Qed.

(** X14.  For a byte count below [2^53] the number shown is the
    nearest to the exact quotient by the unit, off by at most half a
    unit; it is the count itself in bytes, at least 1 from 1024 bytes
    on, and at most 1024 below [1024^5] bytes: only in TB can it grow
    beyond. *)
Theorem format_size_magnitude (n : Z) :
  0 <= n < 2 ^ 53 ->
  exists v : Z,
    _format_size n = Ok (str_of_Z v ++ unit_name (unit_index n))
    /\ 2 * Z.abs (v * 1024 ^ Z.of_nat (unit_index n) - n)
       <= 1024 ^ Z.of_nat (unit_index n)
    /\ (n < 1024 -> v = n)
    /\ (1024 <= n -> 1 <= v)
    /\ (n < 1024 ^ 5 -> v <= 1024).
Proof.
  intros Hn.
  exists (round_half_even n (1024 ^ Z.of_nat (unit_index n))).
  split.
  { apply (format_size_unrolled n n); [lia|].
    apply float_of_int_small. assumption. }
  destruct (unit_index_spec n) as (Hk4 & Hlt & Hge).
  assert (Hden : 0 < 1024 ^ Z.of_nat (unit_index n))
    by (apply Z.pow_pos_nonneg; lia).
  pose proof (round_half_even_floor n _ Hden) as [Hfl Hce].
  split; [apply round_half_even_near; assumption|].
  split; [|split].
  - intros Hsmall. unfold unit_index.
    destruct (Z.ltb_spec n 1024); [|lia].
    change (1024 ^ Z.of_nat 0) with 1. apply round_half_even_1.
  - intros Hbig.
    assert (Hk : (0 < unit_index n)%nat).
    { unfold unit_index. destruct (Z.ltb_spec n 1024); [lia|].
      destruct (n <? 1024 ^ 2), (n <? 1024 ^ 3), (n <? 1024 ^ 4); lia. }
    specialize (Hge Hk).
    assert (1 <= n / 1024 ^ Z.of_nat (unit_index n))
      by (apply Z.div_le_lower_bound; lia).
    lia.
  - intros Hcap.
    assert (Hup : n < 1024 ^ (Z.of_nat (unit_index n) + 1)).
    { destruct (Nat.eq_dec (unit_index n) 4) as [E|E].
      - rewrite E. exact Hcap.
      - apply Hlt. lia. }
    rewrite Z.pow_add_r in Hup by lia. change (1024 ^ 1) with 1024 in Hup.
    assert (n / 1024 ^ Z.of_nat (unit_index n) < 1024)
      by (apply Z.div_lt_upper_bound; lia).
    lia.
Qed.

(** ** Into a folder and up again *)

Section Rows.

Variable lower : string -> string.

Lemma on_file_table_row_selected_up (fs : FS) (key : nat)
    (table_dir : Path) (app : App) :
  table_current_directory (file_table app) = Some table_dir ->
  nth_error (table_rows (file_table app)) key = Some up_row ->
  on_file_table_row_selected lower fs key app
  = navigate lower fs (parent table_dir) app.
Proof.
  intros Ht Hrow. unfold on_file_table_row_selected.
  rewrite bind_get, Ht. rewrite (bind_get_row key up_row _ app Hrow).
  reflexivity.
Qed.

(** X15.  In a session, typing in the path of a child folder and then
    selecting the up row of its listing leads back to the directory
    of the start, with that directory and the folder appended to the
    history in this order. *)
Theorem enter_then_up (cwd : Path) (app : App) (fs fs' : FS)
    (value : string) (key : nat) (name : string) :
  session lower cwd app ->
  fs_resolve fs value = Ok (current_directory app ++ [name])%list ->
  fs_exists fs (current_directory app ++ [name])%list = Ok true ->
  fs_is_dir fs (current_directory app ++ [name])%list = Ok true ->
  let inside := final (on_input_submitted lower fs "path-input" value app) in
  nth_error (table_rows (file_table inside)) key = Some up_row ->
  let out := final (on_file_table_row_selected lower fs' key inside) in
  current_directory inside = (current_directory app ++ [name])%list
  /\ current_directory out = current_directory app
  /\ history out
     = (history app
        ++ [current_directory app; (current_directory app ++ [name])%list])%list.
Proof.
  intros Hs Hres He Hd inside Hup out.
  pose proof (session_inv lower cwd app Hs) as Hinv.
  pose proof Hinv as [Hc _].
  assert (Hin : inside
                = final (navigate lower fs
                           (current_directory app ++ [name])%list app)).
  { unfold inside.
    rewrite (on_input_submitted_navigate lower fs value _ app Hres He Hd).
    apply try_except_final. reflexivity. }
  assert (Hdiff : path_eqb (current_directory app)
                    (current_directory app ++ [name])%list = false).
  { apply path_eqb_neq. intros E.
    apply (f_equal (@List.length string)) in E. rewrite length_app in E.
    cbn in E. lia. }
  assert (Hcur : current_directory inside
                 = (current_directory app ++ [name])%list)
    by (rewrite Hin; apply navigate_current).
  assert (Hhist : history inside
                  = (history app ++ [current_directory app])%list).
  { rewrite Hin, (navigate_history lower fs _ _ app Hc), Hdiff. reflexivity. }
  assert (Hinv' : history_inv inside)
    by (rewrite Hin; apply navigate_grows; assumption).
  pose proof Hinv' as [Hc' _].
  assert (Hout : out = final (navigate lower fs' (current_directory app) inside)).
  { unfold out.
    rewrite (on_file_table_row_selected_up fs' key _ inside Hc' Hup).
    rewrite Hcur. unfold parent. rewrite removelast_last. reflexivity. }
  split; [assumption|]. split.
  - rewrite Hout. apply navigate_current.
  - rewrite Hout, (navigate_history lower fs' _ _ inside Hc'), Hcur, Hhist.
    assert (E : path_eqb (current_directory app ++ [name])%list
                  (current_directory app) = false).
    { apply path_eqb_neq. intros E. apply path_eqb_neq in Hdiff.
      apply Hdiff. symmetry. assumption. }
    rewrite E, <- app_assoc. reflexivity.
Qed.

End Rows.

(** ** Reloads that return, and reloads that raise *)

Section Reloads.

Variable lower : string -> string.

(** X16.  Changing to a path that is found not to exist, or to be no
    directory, is not refused: the handler returns without a notice,
    the path becomes the current directory and is recorded like any
    other, the table is left empty, without navigation rows or an
    error row, and the status panel says that the path is no
    directory. *)
Theorem navigate_missing (fs : FS) (p : Path) (app : App) :
  fs_exists fs p = Ok false
  \/ (fs_exists fs p = Ok true /\ fs_is_dir fs p = Ok false) ->
  let o := navigate lower fs p app in
  result o = Ok tt
  /\ notices o = []
  /\ current_directory (final o) = p
  /\ table_current_directory (file_table (final o)) = Some p
  /\ table_rows (file_table (final o)) = []
  /\ is_valid (logseq_status (final o)) = false
  /\ status_summary (logseq_status (final o)) = [not_a_directory_line].
Proof.
  intros Hd. cbv zeta.
  assert (Hload : load_directory lower fs p true (file_table app)
                  = ({| table_current_directory := Some p;
                        directory_history :=
                          directory_history
                            (fst (load_directory lower fs p true
                                    (file_table app)));
                        table_rows := [] |}, None)).
  { unfold load_directory, missing_or_not_dir.
    destruct Hd as [->|[-> ->]]; reflexivity. }
  pose proof (validate_not_directory fs p Hd) as Hv.
  rewrite navigate_unfold, refresh_all_unfold. cbv zeta.
  cbn [current_directory set_current_directory file_table].
  rewrite Hload. cbn [fst snd result notices final].
  unfold status_check. rewrite Hv.
  repeat split.
Qed.

(** The table is loaded without an exception whenever the directory
    is found to be missing, or refuses to be listed, or is listed
    with children of which [is_dir] answers and that can each be read
    or fail with an [OSError]. *)
Lemma load_directory_returns (fs : FS) (directory : Path)
    (add_to_history : bool) (t : FileTable) :
  (fs_exists fs directory = Ok false
   \/ (fs_exists fs directory = Ok true /\ fs_is_dir fs directory = Ok false)
   \/ (fs_exists fs directory = Ok true /\ fs_is_dir fs directory = Ok true
       /\ (fs_iterdir fs directory = Raise PermissionError
           \/ exists items,
                fs_iterdir fs directory = Ok items
                /\ forall name, In name items -> skipped name = false ->
                     entry_readable fs (directory / name)%path))) ->
  snd (load_directory lower fs directory add_to_history t) = None.
Proof.
  intros [H|[[He Hd]|(He & Hd & [Hi|(items & Hi & Hread)])]].
  - unfold load_directory, missing_or_not_dir. rewrite H. reflexivity.
  - unfold load_directory, missing_or_not_dir. rewrite He, Hd. reflexivity.
  - unfold load_directory, missing_or_not_dir, list_entries.
    rewrite He, Hd, Hi. reflexivity.
  - apply (load_directory_listing lower fs directory add_to_history t items
             He Hd Hi Hread).
Qed.

(** X17.  Let the current directory be found missing, or refuse to
    be listed, or be listed with children of which [is_dir] answers
    and that can each be read or fail with an [OSError].  Then a
    reload loads the table and goes on to the validator: when that
    returns, the reload returns and the status panel holds its
    result; when it raises, the reload raises the same, with the table
    loaded and the verdict of the status panel as it was. *)
Theorem refresh_all_outcome (fs : FS) (app : App) :
  (fs_exists fs (current_directory app) = Ok false
   \/ (fs_exists fs (current_directory app) = Ok true
       /\ fs_is_dir fs (current_directory app) = Ok false)
   \/ (fs_exists fs (current_directory app) = Ok true
       /\ fs_is_dir fs (current_directory app) = Ok true
       /\ (fs_iterdir fs (current_directory app) = Raise PermissionError
           \/ exists items,
                fs_iterdir fs (current_directory app) = Ok items
                /\ forall name, In name items -> skipped name = false ->
                     entry_readable fs
                       (current_directory app / name)%path))) ->
  let o := refresh_all lower fs app in
  (forall checked,
     validate_logseq_structure fs (current_directory app) = Ok checked ->
     result o = Ok tt
     /\ logseq_status (final o)
        = status_shown (current_directory app) checked)
  /\ (forall e,
        validate_logseq_structure fs (current_directory app) = Raise e ->
        result o = Raise e
        /\ file_table (final o)
           = fst (load_directory lower fs (current_directory app) true
                    (file_table app))
        /\ is_valid (logseq_status (final o)) = is_valid (logseq_status app)
        /\ status_summary (logseq_status (final o))
           = status_summary (logseq_status app)).
Proof.
  intros H. cbv zeta.
  pose proof (load_directory_returns fs (current_directory app) true
                (file_table app) H) as Hload.
  rewrite refresh_all_unfold. cbv zeta. rewrite Hload.
  unfold status_check. split.
  - intros checked ->. split; reflexivity.
  - intros e ->. repeat split.
Qed.

End Reloads.

(** ** The properties at work *)

Lemma mounted_in_session :
  session ascii_lower Fixture.ws (Fixture.mounted Fixture.fs_ws Fixture.ws).
Proof.
  apply (session_mount ascii_lower Fixture.ws Fixture.fs_ws).
  exists tt. vm_compute. reflexivity.
Defined.

Lemma visited_in_session : session ascii_lower Fixture.ws Fixture.visited.
Proof.
  apply (session_step ascii_lower Fixture.ws
           (Fixture.mounted Fixture.fs_ws Fixture.ws)).
  - exact mounted_in_session.
  - exists Fixture.fs_ws, (InputSubmitted "path-input" "/ws/notes").
    split; [exists tt|]; vm_compute; reflexivity.
Defined.

Lemma ws_children_readable (name : string) :
  In name ["notes"; "Readme.txt"; ".git"; "archive"; "Build"] ->
  skipped name = false ->
  entry_readable Fixture.fs_ws (Fixture.ws / name)%path.
Proof.
  intros [<-|[<-|[<-|[<-|[<-|[]]]]]] _;
    (split; [eexists; vm_compute; reflexivity|]);
    vm_compute; (split; [discriminate|reflexivity]).
Defined.

Lemma links_children_readable (name : string) :
  In name ["target.txt"; "gone"; "sub"] ->
  skipped name = false ->
  entry_readable Fixture.fs_links (Fixture.links / name)%path.
Proof.
  intros [<-|[<-|[<-|[]]]] _;
    (split; [eexists; vm_compute; reflexivity|]);
    vm_compute; (reflexivity || (split; [discriminate|reflexivity])).
Defined.

Lemma load_directory_rows_witness :
  table_rows
    (fst (load_directory ascii_lower Fixture.fs_links Fixture.links true
            (file_table (init Fixture.links))))
  = [up_row; dir_row "sub" "0 items"; file_row "gone" "locked";
     file_row "target.txt" "10B"].
Proof.
  destruct (load_directory_rows ascii_lower Fixture.fs_links Fixture.links
              true (file_table (init Fixture.links))
              ["target.txt"; "gone"; "sub"]
              eq_refl eq_refl eq_refl links_children_readable)
    as (_ & Hrows & _).
  rewrite Hrows. vm_compute. reflexivity.
Defined.

Lemma load_directory_shows_witness :
  ~ In (entry_row Fixture.fs_ws Fixture.ws ".git")
       (table_rows
          (fst (load_directory ascii_lower Fixture.fs_ws Fixture.ws true
                  (file_table (init Fixture.ws))))).
Proof.
  destruct (load_directory_shows ascii_lower Fixture.fs_ws Fixture.ws true
              (file_table (init Fixture.ws))
              ["notes"; "Readme.txt"; ".git"; "archive"; "Build"]
              eq_refl eq_refl eq_refl ws_children_readable) as [Hshown _].
  intros Hin. apply (Hshown ".git") in Hin.
  - destruct Hin as [H|H]; vm_compute in H; discriminate.
  - right. right. left. reflexivity.
Defined.

Lemma load_directory_push_pop_witness :
  fst (go_back
         (fst (load_directory ascii_lower Fixture.fs_ws Fixture.notes true
                 (file_table (Fixture.mounted Fixture.fs_ws Fixture.ws)))))
  = Some Fixture.ws.
Proof.
  assert (Hc : table_current_directory
                 (file_table (Fixture.mounted Fixture.fs_ws Fixture.ws))
               = Some Fixture.ws) by (vm_compute; reflexivity).
  destruct (load_directory_push_pop ascii_lower Fixture.fs_ws Fixture.notes
              Fixture.ws true _ Hc) as (_ & Hpush & _).
  apply Hpush; [reflexivity|]. intros H. vm_compute in H. discriminate.
Defined.

Lemma handle_moves_history_witness :
  history_move Fixture.visited
    (final (handle ascii_lower Fixture.fs_ws KeyBack Fixture.visited)).
Proof.
  apply (handle_moves_history ascii_lower Fixture.ws Fixture.visited
           Fixture.fs_ws KeyBack visited_in_session).
Defined.

Lemma handle_moves_selection_witness :
  selected_directory
    (final (handle ascii_lower Fixture.fs_emptied KeyRefresh Faults.chosen))
  <> None.
Proof.
  apply (handle_moves_selection ascii_lower Fixture.fs_emptied KeyRefresh
           Faults.chosen).
  vm_compute. discriminate.
Defined.

Lemma refresh_keeps_place_witness :
  history (final (action_refresh ascii_lower Fixture.fs_ws Fixture.visited))
  = history Fixture.visited.
Proof.
  apply (refresh_keeps_place ascii_lower Fixture.ws Fixture.visited
           Fixture.fs_ws visited_in_session).
Defined.

Lemma on_input_submitted_returns_witness :
  notices (on_input_submitted ascii_lower Fixture.fs_ws "path-input"
             "nowhere" (Fixture.mounted Fixture.fs_ws Fixture.ws))
  = [Invalid_path]
  /\ notices (on_input_submitted ascii_lower Fixture.fs_ws "path-input"
                "~nosuchuser" (Fixture.mounted Fixture.fs_ws Fixture.ws))
     = [Error_notice Exception]
  /\ notices (on_input_submitted ascii_lower Fixture.fs_ws "path-input"
                "/ws/archive/x" (Fixture.mounted Fixture.fs_ws Fixture.ws))
     = [Error_notice PermissionError].
Proof.
  split; [|split].
  - destruct (on_input_submitted_returns ascii_lower Fixture.fs_ws
                "path-input" "nowhere"
                (Fixture.mounted Fixture.fs_ws Fixture.ws))
      as (_ & _ & _ & Hinvalid & _).
    apply (Hinvalid eq_refl ["ws"; "nowhere"]).
    + vm_compute. reflexivity.
    + left. vm_compute. reflexivity.
  - destruct (on_input_submitted_returns ascii_lower Fixture.fs_ws
                "path-input" "~nosuchuser"
                (Fixture.mounted Fixture.fs_ws Fixture.ws))
      as (_ & Herr & _).
    apply (Herr eq_refl Exception). vm_compute. reflexivity.
  - destruct (on_input_submitted_returns ascii_lower Fixture.fs_ws
                "path-input" "/ws/archive/x"
                (Fixture.mounted Fixture.fs_ws Fixture.ws))
      as (_ & _ & Herr & _).
    apply (Herr eq_refl ["ws"; "archive"; "x"] PermissionError).
    + vm_compute. reflexivity.
    + left. vm_compute. reflexivity.
Defined.

Lemma on_input_submitted_navigates_witness :
  current_directory
    (final (on_input_submitted ascii_lower Fixture.fs_ws "path-input"
              "/ws/notes" (Fixture.mounted Fixture.fs_ws Fixture.ws)))
  = Fixture.notes.
Proof.
  assert (Hp : fs_resolve Fixture.fs_ws "/ws/notes" = Ok Fixture.notes)
    by (vm_compute; reflexivity).
  assert (He : fs_exists Fixture.fs_ws Fixture.notes = Ok true)
    by (vm_compute; reflexivity).
  assert (Hd : fs_is_dir Fixture.fs_ws Fixture.notes = Ok true)
    by (vm_compute; reflexivity).
  apply (on_input_submitted_navigates ascii_lower Fixture.ws _ Fixture.fs_ws
           "/ws/notes" Fixture.notes mounted_in_session Hp He Hd).
Defined.

Lemma on_input_submitted_reload_fails_witness :
  notices (on_input_submitted ascii_lower Faults.fs_broken "path-input"
             "/ws/notes" (Fixture.mounted Fixture.fs_ws Fixture.ws))
  = [Error_notice OSError].
Proof.
  assert (Hp : fs_resolve Faults.fs_broken "/ws/notes" = Ok Fixture.notes)
    by (vm_compute; reflexivity).
  assert (He : fs_exists Faults.fs_broken Fixture.notes = Ok true)
    by (vm_compute; reflexivity).
  assert (Hd : fs_is_dir Faults.fs_broken Fixture.notes = Ok true)
    by (vm_compute; reflexivity).
  assert (Hi : fs_iterdir Faults.fs_broken Fixture.notes = Raise OSError)
    by (vm_compute; reflexivity).
  assert (Hne : OSError <> PermissionError) by discriminate.
  apply (on_input_submitted_reload_fails ascii_lower Faults.fs_broken
           "/ws/notes" Fixture.notes OSError
           (Fixture.mounted Fixture.fs_ws Fixture.ws) Hp He Hd Hi Hne).
Defined.

Lemma validate_summary_witness :
  validate_logseq_structure Fixture.fs_ws Fixture.notes
  = Ok (true,
        ["✅ logseq/"; "✅ pages/"; "✅ journals/"; "📄 2 pages";
         "📅 1 journals"]).
Proof.
  rewrite (validate_summary Fixture.fs_ws Fixture.notes true true true
             ["a.md"; "b.md"] ["2024_01_01.md"] eq_refl eq_refl
             eq_refl eq_refl eq_refl
             (fun _ => eq_refl) (fun _ => eq_refl)).
  vm_compute. reflexivity.
Defined.

Lemma validate_invalid_iff_absent_line_witness :
  exists item,
    In item required_items
    /\ In (absent_line item) ["❌ logseq/"; "❌ pages/"; "❌ journals/"].
Proof.
  assert (Hv : validate_logseq_structure Fixture.fs_ws Fixture.ws
               = Ok (false, ["❌ logseq/"; "❌ pages/"; "❌ journals/"]))
    by (vm_compute; reflexivity).
  apply (proj1 (validate_invalid_iff_absent_line Fixture.fs_ws Fixture.ws
                  false ["❌ logseq/"; "❌ pages/"; "❌ journals/"]
                  eq_refl eq_refl Hv)).
  reflexivity.
Defined.

Lemma format_size_magnitude_witness :
  exists v : Z,
    _format_size 1536 = Ok (str_of_Z v ++ unit_name (unit_index 1536))
    /\ 2 * Z.abs (v * 1024 ^ Z.of_nat (unit_index 1536) - 1536)
       <= 1024 ^ Z.of_nat (unit_index 1536)
    /\ (1536 < 1024 -> v = 1536)
    /\ (1024 <= 1536 -> 1 <= v)
    /\ (1536 < 1024 ^ 5 -> v <= 1024).
Proof.
  apply (format_size_magnitude 1536). split; [discriminate|reflexivity].
Defined.

Lemma enter_then_up_witness :
  current_directory
    (final (on_file_table_row_selected ascii_lower Fixture.fs_ws 1%nat
              Fixture.visited))
  = Fixture.ws.
Proof.
  assert (Hres : fs_resolve Fixture.fs_ws "/ws/notes"
                 = Ok (current_directory
                         (Fixture.mounted Fixture.fs_ws Fixture.ws)
                       ++ ["notes"])%list)
    by (vm_compute; reflexivity).
  assert (He : fs_exists Fixture.fs_ws
                 (current_directory (Fixture.mounted Fixture.fs_ws Fixture.ws)
                  ++ ["notes"])%list = Ok true)
    by (vm_compute; reflexivity).
  assert (Hd : fs_is_dir Fixture.fs_ws
                 (current_directory (Fixture.mounted Fixture.fs_ws Fixture.ws)
                  ++ ["notes"])%list = Ok true)
    by (vm_compute; reflexivity).
  pose proof (enter_then_up ascii_lower Fixture.ws
                (Fixture.mounted Fixture.fs_ws Fixture.ws)
                Fixture.fs_ws Fixture.fs_ws "/ws/notes" 1%nat "notes"
                mounted_in_session Hres He Hd) as H.
  cbv zeta in H.
  assert (Hup : nth_error
                  (table_rows
                     (file_table
                        (final (on_input_submitted ascii_lower Fixture.fs_ws
                                  "path-input" "/ws/notes"
                                  (Fixture.mounted Fixture.fs_ws Fixture.ws)))))
                  1 = Some up_row)
    by (vm_compute; reflexivity).
  destruct (H Hup) as (_ & Hout & _).
  etransitivity; [|etransitivity; [exact Hout|]]; vm_compute; reflexivity.
Defined.

Lemma navigate_missing_witness :
  table_rows
    (file_table (final (navigate ascii_lower Fixture.fs_ws ["nowhere"]
                          (Fixture.mounted Fixture.fs_ws Fixture.ws))))
  = [].
Proof.
  apply (navigate_missing ascii_lower Fixture.fs_ws ["nowhere"]
           (Fixture.mounted Fixture.fs_ws Fixture.ws)).
  left. vm_compute. reflexivity.
Defined.

Lemma refresh_all_outcome_witness :
  result (refresh_all ascii_lower Fixture.fs_ws
            (set_current_directory ["ws"; "archive"]
               (Fixture.mounted Fixture.fs_ws Fixture.ws)))
  = Raise PermissionError
  /\ result (refresh_all ascii_lower Fixture.fs_ws
               (Fixture.mounted Fixture.fs_ws Fixture.ws))
     = Ok tt.
Proof.
  split.
  - destruct (refresh_all_outcome ascii_lower Fixture.fs_ws
                (set_current_directory ["ws"; "archive"]
                   (Fixture.mounted Fixture.fs_ws Fixture.ws)))
      as [_ Hraise].
    + right. right. repeat split; [vm_compute; reflexivity..|].
      left. vm_compute. reflexivity.
    + apply (Hraise PermissionError). vm_compute. reflexivity.
  - destruct (refresh_all_outcome ascii_lower Fixture.fs_ws
                (Fixture.mounted Fixture.fs_ws Fixture.ws))
      as [Hret _].
    + right. right. repeat split; [vm_compute; reflexivity..|].
      right. exists ["notes"; "Readme.txt"; ".git"; "archive"; "Build"].
      split; [vm_compute; reflexivity|]. exact ws_children_readable.
    + apply (Hret (false, ["❌ logseq/"; "❌ pages/"; "❌ journals/"])).
      vm_compute. reflexivity.
Defined.

(** ** Listings that fail, and what a session keeps *)

Section Keeps.

Variable lower : string -> string.

(** X18.  When [load_directory] lets an exception out, the table is
    left empty.  The exception is what the check of the directory at
    the top raised, whatever it is: nothing catches it.  Or the
    directory was found, the exception is no refused permission, and
    it comes from listing the directory itself or from a child that is
    shown: from reading the child, when that raised something that is
    no [OSError], or from [is_dir] in the handler of an [OSError] of
    its reading. *)
Theorem load_directory_raises (fs : FS) (directory : Path)
    (add_to_history : bool) (t : FileTable) (e : exn) :
  snd (load_directory lower fs directory add_to_history t) = Some e ->
  table_rows (fst (load_directory lower fs directory add_to_history t)) = []
  /\ (fs_exists fs directory = Raise e
      \/ (fs_exists fs directory = Ok true
          /\ fs_is_dir fs directory = Raise e)
      \/ (fs_exists fs directory = Ok true
          /\ fs_is_dir fs directory = Ok true
          /\ e <> PermissionError
          /\ (fs_iterdir fs directory = Raise e
              \/ exists items name,
                   fs_iterdir fs directory = Ok items
                   /\ In name items
                   /\ skipped name = false
                   /\ ((entry_size fs (directory / name)%path = Raise e
                        /\ is_OSError e = false)
                       \/ exists e0,
                            entry_size fs (directory / name)%path = Raise e0
                            /\ is_OSError e0 = true
                            /\ fs_is_dir fs (directory / name)%path
                               = Raise e)))).
Proof.
  unfold load_directory, missing_or_not_dir.
  destruct (fs_exists fs directory) as [e1|[|]];
    [cbn; intros [= <-]; split; [reflexivity|left; reflexivity]
    | |discriminate].
  destruct (fs_is_dir fs directory) as [e1|[|]];
    [cbn; intros [= <-]; split;
       [reflexivity|right; left; split; reflexivity]
    | |discriminate].
  cbn [negb].
  match goal with
  | |- context [list_entries lower fs directory ?h] => set (history := h)
  end.
  destruct (list_entries lower fs directory history) as [e'|entries] eqn:Hl;
    [|discriminate].
  assert (He' : snd (match e' with
                     | PermissionError =>
                         ({| table_current_directory := Some directory;
                             directory_history := history;
                             table_rows := [error_row] |}, None)
                     | _ =>
                         ({| table_current_directory := Some directory;
                             directory_history := history;
                             table_rows := [] |}, Some e')
                     end) = Some e -> e' = e /\ e <> PermissionError).
  { destruct e'; cbn; intros [= <-]; split; (reflexivity || discriminate). }
  intros H. destruct (He' H) as [-> Hne]. clear He' H.
  split; [destruct e; try reflexivity; contradiction|].
  right. right.
  split; [reflexivity|]. split; [reflexivity|]. split; [assumption|].
  unfold list_entries in Hl.
  destruct (fs_iterdir fs directory) as [e'|items];
    [left; injection Hl as ->; reflexivity|].
  right.
  destruct (scan fs directory items [] []) as [e'|[directories files]] eqn:Hs;
    [|discriminate].
  injection Hl as ->.
  destruct (scan_raises fs directory items [] [] e Hs)
    as (name & Hin & Hsk & Hwhy).
  exists items, name. repeat split; assumption.
Qed.

Lemma navigate_shows_current (fs : FS) (p : Path) (app : App) :
  shows_current (final (navigate lower fs p app)).
Proof.
  split; [rewrite navigate_table_current, navigate_current; reflexivity|].
  rewrite navigate_current, navigate_unfold, refresh_all_unfold. cbv zeta.
  destruct (snd _); reflexivity.
Qed.

Lemma handled_shows_current (fs : FS) (app app' : App) :
  shows_current app -> handled lower fs app app' -> shows_current app'.
Proof.
  intros Hinv H. destruct H as [|target|Hv|p|].
  - assumption.
  - exact Hinv.
  - exact Hinv.
  - apply navigate_shows_current.
  - destruct (action_go_back_final lower fs app) as [->|[_ ->]];
      [assumption|apply navigate_shows_current].
Qed.

(** X19.  In every state of a session the table shows the current
    directory and the subtitle names it. *)
Theorem session_shows_current (cwd : Path) (app : App) :
  session lower cwd app -> shows_current app.
Proof.
  induction 1 as [fs Hret|app app' Hs IH (fs & ev & _ & <-)].
  - unfold on_mount. rewrite refresh_all_navigate.
    apply navigate_shows_current.
  - apply (handled_shows_current fs app); [assumption|].
    apply handle_handled.
Qed.

(** X20.  In a session GoBack undoes the last change of directory:
    after an event that changed the current directory, a GoBack leads
    to the directory that the event left. *)
Theorem go_back_undoes_last_move (cwd : Path) (app : App) (fs fs' : FS)
    (ev : Event) :
  session lower cwd app ->
  let moved := final (handle lower fs ev app) in
  current_directory moved <> current_directory app ->
  current_directory (final (action_go_back lower fs' moved))
  = current_directory app
  /\ List.length (history (final (action_go_back lower fs' moved)))
     = List.length (history moved).
Proof.
  intros Hs moved Hmoved.
  pose proof (session_inv lower cwd app Hs) as Hinv.
  destruct (handle_grows lower fs ev app Hinv) as [Hinv' _].
  fold moved in Hinv'.
  pose proof (handled_move lower fs app moved Hinv
                (handle_handled lower fs ev app)) as Hm.
  assert (Hlast : history moved <> []
                  /\ last (history moved) [] = current_directory app).
  { destruct Hm as [[Hc _]|[[_ Hh]|(_ & _ & _ & Hh)]];
      [contradiction| |]; rewrite Hh; (split; [|apply last_last]);
      intros E; apply app_eq_nil in E as [_ E]; discriminate. }
  destruct Hlast as [Hne Hlast].
  destruct (action_go_back_swaps lower fs' moved Hinv' Hne)
    as (Hc & Hh & _ & _).
  split; [rewrite Hc; assumption|].
  rewrite Hh, length_app. cbn [List.length].
  rewrite <- (removelast_length_S (history moved) [] Hne). lia.
Qed.

End Keeps.

Lemma load_directory_raises_witness :
  table_rows
    (fst (load_directory ascii_lower Faults.fs_broken Fixture.notes true
            (file_table (Fixture.mounted Fixture.fs_ws Fixture.ws))))
  = [].
Proof.
  apply (load_directory_raises ascii_lower Faults.fs_broken Fixture.notes true
           (file_table (Fixture.mounted Fixture.fs_ws Fixture.ws)) OSError).
  vm_compute. reflexivity.
Defined.

Lemma session_shows_current_witness : shows_current Fixture.visited.
Proof.
  apply (session_shows_current ascii_lower Fixture.ws Fixture.visited
           visited_in_session).
Defined.

Lemma go_back_undoes_last_move_witness :
  current_directory
    (final (action_go_back ascii_lower Fixture.fs_ws Fixture.visited))
  = Fixture.ws.
Proof.
  assert (Hmoved : current_directory
                     (final (handle ascii_lower Fixture.fs_ws
                               (InputSubmitted "path-input" "/ws/notes")
                               (Fixture.mounted Fixture.fs_ws Fixture.ws)))
                   <> current_directory
                        (Fixture.mounted Fixture.fs_ws Fixture.ws))
    by (vm_compute; discriminate).
  destruct (go_back_undoes_last_move ascii_lower Fixture.ws
              (Fixture.mounted Fixture.fs_ws Fixture.ws)
              Fixture.fs_ws Fixture.fs_ws
              (InputSubmitted "path-input" "/ws/notes")
              mounted_in_session Hmoved) as [Hc _].
  etransitivity; [exact Hc|]. vm_compute. reflexivity.
Defined.
